(** * Longest-prefix-match trie and lookup cache of [src/c/route_lookup.c]

    A shallow embedding of the binary trie ([insert_route],
    [lookup_route_optimized], [delete_route]) and of the lookup cache
    ([create_route_cache], [lookup_with_cache]), followed by the properties
    of the specification that the code has, and the places where it does not
    have them.

    Conventions of the embedding.
    - C integers ([int], [uint32_t], [time_t]) are [Z]; shifts and masks are
      [Z.shiftr] and [Z.land].
    - A pointer to a trie node is an [option trie_node]; [None] is [NULL].
      The trie is an ownership tree: a node is linked from one slot only
      (nodes are created inside [insert_route] and linked once), so the
      pointer graph is a tree and in-place writes below [current] are
      rebuilt on the way back to the root.
    - A pointer to a route record is an [option route_entry].
    - [malloc] is modelled by [heap], the number of blocks it can still
      hand out; on an exhausted heap it returns [NULL].
    - The programs are defined for [0 <= prefix_len <= 32]; outside this
      range [ip_to_binary] writes outside [binary[33]], which C leaves
      undefined, and the theorems carry the range as a hypothesis. *)

From Stdlib Require Import ZArith List Bool Lia.
Import ListNotations.
Local Open Scope Z_scope.

(** ** Data model *)

(** [route_entry_t]. *)
Record route_entry : Type := mk_route {
  prefix : Z;            (* uint32_t *)
  prefix_len : Z;        (* int *)
  next_hop : Z;          (* uint32_t *)
  as_path : list Z;      (* int[10] *)
  as_path_len : Z;
  local_pref : Z;
  med : Z;
  last_update : Z        (* time_t *)
}.

(** [trie_node_t].  The fields [prefix] and [prefix_len] of the C node are
    [node_prefix] and [node_prefix_len] here (the route record has fields of
    the same names). *)
#[warnings="-register-all"]
Inductive trie_node : Type :=
  Node {
    children0 : option trie_node;      (* children[0] *)
    children1 : option trie_node;      (* children[1] *)
    node_prefix : option (list Z);     (* char *prefix *)
    node_prefix_len : Z;
    data : option route_entry;         (* void *data *)
    is_leaf : bool                     (* int is_leaf, only ever 0 or 1 *)
  }.

(** [node->children[bit]], for [bit] 0 or 1. *)
Definition children (node : trie_node) (bit : Z) : option trie_node :=
  if bit =? 0 then children0 node else children1 node.

(** [node->children[bit] = p]. *)
Definition set_children (node : trie_node) (bit : Z) (p : option trie_node)
  : trie_node :=
  if bit =? 0
  then Node p (children1 node) (node_prefix node) (node_prefix_len node)
            (data node) (is_leaf node)
  else Node (children0 node) p (node_prefix node) (node_prefix_len node)
            (data node) (is_leaf node).

(** [node->data = d; node->is_leaf = l]. *)
Definition set_data_leaf (node : trie_node) (d : option route_entry) (l : bool)
  : trie_node :=
  Node (children0 node) (children1 node) (node_prefix node)
       (node_prefix_len node) d l.

(** ** [create_trie_node] *)

(** The node as [create_trie_node] initialises it. *)
Definition fresh_node : trie_node :=
  Node None None None 0 None false.

(** [create_trie_node()]: [NULL] when [malloc] fails, else a node with every
    field initialised; the second component is the heap left. *)
Definition create_trie_node (heap : nat) : option trie_node * nat :=
  match heap with
  | O => (None, O)
  | S heap' => (Some fresh_node, heap')
  end.

(** ** [ip_to_binary] *)

Definition char_0 : Z := 48.   (* '0' *)
Definition char_1 : Z := 49.   (* '1' *)

(** [buf[k] = v] on the initialised cells of a buffer: a write just after
    the last initialised cell extends them. *)
Definition store (buf : list Z) (k : nat) (v : Z) : list Z :=
  firstn k buf ++ v :: skipn (S k) buf.

(** The initialised cells of [binary] after [ip_to_binary(ip, prefix_len,
    binary)]: 32 digits, most significant bit first, then the terminator
    written at index [prefix_len]. *)
Definition ip_to_binary (ip : Z) (prefix_len : Z) : list Z :=
  let digits :=
    map (fun i : nat =>
           if Z.land (Z.shiftr ip (31 - Z.of_nat i)) 1 =? 0
           then char_0 else char_1)
        (seq 0 32) in
  store digits (Z.to_nat prefix_len) 0.

(** ** [insert_route] *)

(** The [for] loop of [insert_route] with [n] iterations left, at index [i]
    and node [current]; the result is [current] as the loop and the two
    final assignments leave it, and the return code. *)
Fixpoint insert_loop (n : nat) (i : Z) (binary : list Z) (route : route_entry)
    (heap : nat) (current : trie_node) : trie_node * Z :=
  match n with
  | O => (set_data_leaf current (Some route) true, 0)
  | S n' =>
      let bit := nth (Z.to_nat i) binary 0 - char_0 in
      match children current bit with
      | Some child =>
          let (child', rc) := insert_loop n' (i + 1) binary route heap child in
          (set_children current bit (Some child'), rc)
      | None =>
          match create_trie_node heap with
          | (None, _) => (set_children current bit None, -1)
          | (Some child, heap') =>
              let (child', rc) :=
                insert_loop n' (i + 1) binary route heap' child in
              (set_children current bit (Some child'), rc)
          end
      end
  end.

Definition insert_route (heap : nat) (root : trie_node) (route : route_entry)
  : trie_node * Z :=
  insert_loop (Z.to_nat (prefix_len route)) 0
              (ip_to_binary (prefix route) (prefix_len route))
              route heap root.

(** ** [lookup_route_optimized] *)

(** The [for] loop of [lookup_route_optimized] with [n] iterations left. *)
Fixpoint lookup_loop (n : nat) (i : Z) (ip : Z) (current : trie_node)
    (best_match : option route_entry) : option route_entry :=
  match n with
  | O => best_match
  | S n' =>
      let bit := Z.land (Z.shiftr ip (31 - i)) 1 in
      match children current bit with
      | None => best_match                               (* break *)
      | Some child =>
          lookup_loop n' (i + 1) ip child
                      (if is_leaf child then data child else best_match)
      end
  end.

Definition lookup_route_optimized (root : trie_node) (ip : Z)
  : option route_entry :=
  lookup_loop 32 0 ip root None.

(** ** [delete_route] *)

(** An entry [path[k]] of [delete_route]: the address of the slot
    [children[bit]] of a node on the way down, kept as the node and the
    bit. *)
Definition slot : Type := (trie_node * Z)%type.

(** The first loop of [delete_route]: [None] when a child is missing
    ([return -1]), else the node reached and the recorded path, last slot
    first. *)
Fixpoint delete_descend (n : nat) (i : Z) (binary : list Z)
    (current : trie_node) (path : list slot) : option (trie_node * list slot) :=
  match n with
  | O => Some (current, path)
  | S n' =>
      let bit := nth (Z.to_nat i) binary 0 - char_0 in
      match children current bit with
      | None => None
      | Some child =>
          delete_descend n' (i + 1) binary child ((current, bit) :: path)
      end
  end.

(** [!node->is_leaf && !node->children[0] && !node->children[1]]. *)
Definition unnecessary (node : trie_node) : bool :=
  negb (is_leaf node) &&
  match children0 node with None => true | Some _ => false end &&
  match children1 node with None => true | Some _ => false end.

(** The clean-up loop of [delete_route], from the last recorded slot to the
    first.  [node] is the node the slot [path[i]] points to, as the lower
    levels left it; [cleaning] turns false at the [break], after which the
    remaining slots keep their nodes. *)
Fixpoint delete_cleanup (path : list slot) (node : trie_node) (cleaning : bool)
  : trie_node :=
  match path with
  | [] => node
  | (parent, bit) :: path' =>
      if cleaning && unnecessary node
      then delete_cleanup path' (set_children parent bit None) true
      else delete_cleanup path' (set_children parent bit (Some node)) false
  end.

Definition delete_route (root : trie_node) (prefix : Z) (prefix_len : Z)
  : trie_node * Z :=
  let binary := ip_to_binary prefix prefix_len in
  match delete_descend (Z.to_nat prefix_len) 0 binary root [] with
  | None => (root, -1)
  | Some (current, path) =>
      if negb (is_leaf current) then (root, -1)
      else (delete_cleanup path (set_data_leaf current None false) true, 0)
  end.

(** ** The lookup cache *)

(** [route_cache_entry_t]. *)
Record route_cache_entry : Type := mk_entry {
  ip : Z;                          (* uint32_t *)
  route : option route_entry;      (* route_entry_t * *)
  timestamp : Z                    (* time_t *)
}.

(** [route_cache_t]: [entries] holds the cells [0 .. size-1] of the array,
    the ones that were written, so that [size] is their number. *)
Record route_cache : Type := mk_cache {
  entries : list route_cache_entry;
  capacity : Z
}.

Definition size (cache : route_cache) : Z :=
  Z.of_nat (length (entries cache)).

Definition create_route_cache (capacity : Z) : route_cache :=
  mk_cache [] capacity.

(** The scan of [lookup_with_cache] over the cells still to visit, in array
    order: [Some r] when the loop returns [r] from inside, [None] when it
    runs to the end. *)
Fixpoint cache_scan (cells : list route_cache_entry) (ip0 : Z) (now : Z)
    (cache_ttl : Z) : option (option route_entry) :=
  match cells with
  | [] => None
  | e :: cells' =>
      if (ip e =? ip0) && (now - timestamp e <? cache_ttl)
      then Some (route e)
      else cache_scan cells' ip0 now cache_ttl
  end.

(** What a call of [lookup_with_cache] leaves: the value returned, the cache,
    and the addresses it passed to [lookup_route_optimized]. *)
Record cache_result : Type := mk_result {
  returned : option route_entry;
  cache_after : route_cache;
  trie_queries : list Z
}.

(** [lookup_with_cache]; [now] is the value of [time(NULL)]. *)
Definition lookup_with_cache (now : Z) (root : trie_node) (cache : route_cache)
    (ip0 : Z) (cache_ttl : Z) : cache_result :=
  match cache_scan (entries cache) ip0 now cache_ttl with
  | Some r => mk_result r cache []
  | None =>
      let r := lookup_route_optimized root ip0 in
      match r with
      | Some _ =>
          if size cache <? capacity cache
          then mk_result r
                 (mk_cache (entries cache ++ [mk_entry ip0 r now])
                           (capacity cache))
                 [ip0]
          else mk_result r cache [ip0]
      | None => mk_result r cache [ip0]
      end
  end.

(** ** Examples of the specification *)

Definition ipv4 (a b c d : Z) : Z := a * 16777216 + b * 65536 + c * 256 + d.

Definition rt (p len hop : Z) : route_entry := mk_route p len hop [] 0 100 0 0.

Definition run_inserts (rs : list route_entry) : trie_node :=
  fold_left (fun t r => fst (insert_route 64 t r)) rs fresh_node.


(** ** Paths: the bits of an address as the loops read them *)

(** Which child a bit value selects: [children[0]] or [children[1]]. *)
Definition child (node : trie_node) (b : bool) : option trie_node :=
  if b then children1 node else children0 node.

Definition set_child (node : trie_node) (b : bool) (p : option trie_node)
  : trie_node :=
  set_children node (Z.b2z b) p.

(** Bits [i], [i+1], ... (counted from the most significant of 32) of [a]. *)
Fixpoint path_from (a : Z) (i : Z) (n : nat) : list bool :=
  match n with
  | O => []
  | S n' => Z.testbit a (31 - i) :: path_from a (i + 1) n'
  end.

(** The first [len] bits of [a]: the path of the prefix [a/len]. *)
Definition path_of (a : Z) (len : Z) : list bool :=
  path_from a 0 (Z.to_nat len).

(** "[p/len] is a bit-prefix of [a]": the [len] high bits agree. *)
Definition is_bit_prefix (p len a : Z) : Prop :=
  forall i, 0 <= i < len -> Z.testbit p (31 - i) = Z.testbit a (31 - i).

Definition is_bit_prefixb (p len a : Z) : bool :=
  forallb (fun i : nat => Bool.eqb (Z.testbit p (31 - Z.of_nat i))
                                   (Z.testbit a (31 - Z.of_nat i)))
          (seq 0 (Z.to_nat len)).

(** The node at the end of a path, when every child on the way exists. *)
Fixpoint find_node (bs : list bool) (t : trie_node) : option trie_node :=
  match bs with
  | [] => Some t
  | b :: bs' =>
      match child t b with
      | None => None
      | Some c => find_node bs' c
      end
  end.

(** The record anchored at the end of a path: [Some d] when the node exists
    and is a leaf with [data = d]. *)
Definition leaf_at (t : trie_node) (bs : list bool)
  : option (option route_entry) :=
  match find_node bs t with
  | Some n => if is_leaf n then Some (data n) else None
  | None => None
  end.

(** The three operations on a path of bits in place of the digits of
    [binary]; the loops above are shown to compute these. *)
Fixpoint insert_path (bs : list bool) (route : route_entry) (heap : nat)
    (t : trie_node) : trie_node * Z :=
  match bs with
  | [] => (set_data_leaf t (Some route) true, 0)
  | b :: bs' =>
      match child t b with
      | Some c =>
          let (c', rc) := insert_path bs' route heap c in
          (set_child t b (Some c'), rc)
      | None =>
          match heap with
          | O => (t, -1)
          | S heap' =>
              let (c', rc) := insert_path bs' route heap' fresh_node in
              (set_child t b (Some c'), rc)
          end
      end
  end.

Fixpoint lookup_path (bs : list bool) (t : trie_node)
    (best_match : option route_entry) : option route_entry :=
  match bs with
  | [] => best_match
  | b :: bs' =>
      match child t b with
      | None => best_match
      | Some c =>
          lookup_path bs' c (if is_leaf c then data c else best_match)
      end
  end.

(** Descent, clearing and clean-up of [delete_route] in one recursion: the
    node as the call leaves it, and whether the clean-up loop is still
    running when it reaches the slot that points to this node. *)
Fixpoint delete_path (bs : list bool) (t : trie_node)
  : option (trie_node * bool) :=
  match bs with
  | [] => if is_leaf t then Some (set_data_leaf t None false, true) else None
  | b :: bs' =>
      match child t b with
      | None => None
      | Some c =>
          match delete_path bs' c with
          | None => None
          | Some (c', cleaning) =>
              if cleaning && unnecessary c'
              then Some (set_child t b None, true)
              else Some (set_child t b (Some c'), false)
          end
      end
  end.

(** The record that a walk along [bs] ends with, over a map [f] from paths
    to anchored records: the one at the longest non-empty prefix of [bs]
    that has one, else [best]. *)
Fixpoint deepest (f : list bool -> option (option route_entry))
    (bs : list bool) (best : option route_entry) : option route_entry :=
  match bs with
  | [] => best
  | b :: bs' =>
      deepest (fun p => f (b :: p)) bs'
              (match f [b] with Some d => d | None => best end)
  end.

(** ** Sequences of trie operations *)

(** A call of [insert_route], with the heap [malloc] has at that moment, or
    of [delete_route]. *)
Inductive trie_op : Type :=
| Insert (heap : nat) (r : route_entry)
| Delete (prefix0 : Z) (prefix_len0 : Z).

Definition apply_op (t : trie_node) (o : trie_op) : trie_node * Z :=
  match o with
  | Insert heap r => insert_route heap t r
  | Delete p len => delete_route t p len
  end.

Definition run_ops (ops : list trie_op) (t : trie_node) : trie_node :=
  fold_left (fun t o => fst (apply_op t o)) ops t.

(** The prefix length of the call is one the code is defined for. *)
Definition op_in_range (o : trie_op) : Prop :=
  match o with
  | Insert _ r => 0 <= prefix_len r <= 32
  | Delete _ len => 0 <= len <= 32
  end.

(** Every [insert_route] of the sequence returns 0. *)
Fixpoint inserts_succeed (ops : list trie_op) (t : trie_node) : Prop :=
  match ops with
  | [] => True
  | o :: ops' =>
      match o with
      | Insert _ _ => snd (apply_op t o) = 0
      | Delete _ _ => True
      end /\ inserts_succeed ops' (fst (apply_op t o))
  end.

(** [n] is a node of the trie [root]: some path from the root ends at it. *)
Definition reachable (root n : trie_node) : Prop :=
  exists p, find_node p root = Some n.

(** [n] is a node of the trie other than the root itself. *)
Definition reachable_below (root n : trie_node) : Prop :=
  exists p, p <> [] /\ find_node p root = Some n.

(** The trie of an empty table: the root as [create_trie_node] returns it. *)
Definition empty_trie : trie_node := fresh_node.

(** ** Nodes left by an [insert_route] that ran out of memory *)

(** A chain of nodes as [create_trie_node] initialises them, each linked
    from one slot of the one before; the last has no child. *)
Inductive blank_chain : trie_node -> Prop :=
| blank_last : blank_chain fresh_node
| blank_link b c : blank_chain c ->
    blank_chain (set_child fresh_node b (Some c)).

(** [grafted t t']: [t'] is [t] with, at most, a blank chain hung in one
    slot that was [NULL]; no field of a node of [t] differs otherwise. *)
Inductive grafted : trie_node -> trie_node -> Prop :=
| grafted_same t : grafted t t
| grafted_below t b c c' :
    child t b = Some c -> grafted c c' ->
    grafted t (set_child t b (Some c'))
| grafted_new t b c :
    child t b = None -> blank_chain c ->
    grafted t (set_child t b (Some c)).

(** ** Sequences of cache lookups *)

(** A call of [lookup_with_cache]: the clock, the trie at that moment, the
    address and the time to live. *)
Record cache_call : Type := mk_call {
  call_now : Z;
  call_root : trie_node;
  call_ip : Z;
  call_ttl : Z
}.

Definition apply_call (cache : route_cache) (k : cache_call) : cache_result :=
  lookup_with_cache (call_now k) (call_root k) cache (call_ip k) (call_ttl k).

Definition run_cache (calls : list cache_call) (cache : route_cache)
  : route_cache :=
  fold_left (fun c k => cache_after (apply_call c k)) calls cache.

(** The test of the scan: the entry is for [ip0] and younger than
    [cache_ttl] at [now]. *)
Definition fresh_for (ip0 now cache_ttl : Z) (e : route_cache_entry) : bool :=
  (ip e =? ip0) && (now - timestamp e <? cache_ttl).

(** The two routes of the specification's example, and its table. *)
Definition route_10_8 : route_entry := rt (ipv4 10 0 0 0) 8 1.
Definition route_10_0_1_24 : route_entry := rt (ipv4 10 0 1 0) 24 2.
Definition example_trie : trie_node :=
  run_inserts [route_10_8; route_10_0_1_24].

(** ** Invariants *)

(** Invariant I1 at and below [t]: no node is non-leaf and childless. *)
Definition pruned (t : trie_node) : Prop :=
  forall p n, find_node p t = Some n -> unnecessary n = false.

(** Invariant I1 strictly below [t]. *)
Definition pruned_below (t : trie_node) : Prop :=
  forall p n, p <> [] -> find_node p t = Some n -> unnecessary n = false.

(** Every anchored record sits at the depth of its own [prefix_len]. *)
Definition anchored_at_depth (t : trie_node) : Prop :=
  forall p d, leaf_at t p = Some d ->
    exists r, d = Some r /\ prefix_len r = Z.of_nat (length p).

(** The calls that insert a list of records, each with its heap. *)
Definition insert_ops (ins : list (nat * route_entry)) : list trie_op :=
  map (fun hr => Insert (fst hr) (snd hr)) ins.

(** Every record anchored in [t] is one of [rs], at the path of its own
    prefix, and every record of [rs] has its node anchored. *)
Definition holds_routes (t : trie_node) (rs : list route_entry) : Prop :=
  (forall p d, leaf_at t p = Some d ->
     exists r, d = Some r /\ In r rs /\
               path_of (prefix r) (prefix_len r) = p)
  /\ (forall r, In r rs ->
        leaf_at t (path_of (prefix r) (prefix_len r)) <> None).

(** The default route 0.0.0.0/0. *)
Definition default_route : route_entry := rt 0 0 7.

(** ** [bulk_insert_routes] *)

(** The loop of [bulk_insert_routes] with [n] iterations left, at index [i]:
    the trie and the return code.  [heap_at i] is the heap [malloc] has
    during the call for [routes[i]].  [None] stands for a read past the end
    of [routes], which C leaves undefined.  The timing record and the line
    printed at the end are not part of the model. *)
Fixpoint bulk_insert_loop (n : nat) (i : Z) (heap_at : Z -> nat)
    (root : trie_node) (routes : list route_entry) : option (trie_node * Z) :=
  match n with
  | O => Some (root, 0)
  | S n' =>
      match nth_error routes (Z.to_nat i) with
      | None => None
      | Some r =>
          let (root', rc) := insert_route (heap_at i) root r in
          if negb (rc =? 0) then Some (root', -1)
          else bulk_insert_loop n' (i + 1) heap_at root' routes
      end
  end.

Definition bulk_insert_routes (heap_at : Z -> nat) (root : trie_node)
    (routes : list route_entry) (count : Z) : option (trie_node * Z) :=
  bulk_insert_loop (Z.to_nat count) 0 heap_at root routes.

(** ** [free_trie_node] *)

(** What [free_trie_node] passes to [free]: a route record ([node->data])
    or a node. *)
Inductive free_event : Type :=
| FreeData (r : route_entry)
| FreeNode.

(** [free_trie_node(node)] for a node that is not [NULL]: the calls of
    [free], in order. *)
Fixpoint free_trie_node_at (node : trie_node) : list free_event :=
  match node with
  | Node c0 c1 _ _ d _ =>
      match c0 with Some c => free_trie_node_at c | None => [] end ++
      match c1 with Some c => free_trie_node_at c | None => [] end ++
      match d with Some r => [FreeData r] | None => [] end ++
      [FreeNode]
  end.

Definition free_trie_node (node : option trie_node) : list free_event :=
  match node with
  | None => []
  | Some n => free_trie_node_at n
  end.

Definition is_free_node (e : free_event) : bool :=
  match e with FreeNode => true | FreeData _ => false end.

(** How many nodes, and how many records, a trace frees. *)
Definition node_frees (tr : list free_event) : nat :=
  length (filter is_free_node tr).

Definition data_frees (tr : list free_event) : nat :=
  length (filter (fun e => negb (is_free_node e)) tr).

(** ** Reading [binary] as a C string *)

(** [strlen]: the cells before the first NUL. *)
Fixpoint c_strlen (buf : list Z) : nat :=
  match buf with
  | [] => O
  | c :: buf' => if c =? 0 then O else S (c_strlen buf')
  end.

(** The number a string of binary digits denotes, most significant digit
    first, read up to the first NUL. *)
Fixpoint binary_value (buf : list Z) (acc : Z) : Z :=
  match buf with
  | [] => acc
  | c :: buf' =>
      if c =? 0 then acc else binary_value buf' (2 * acc + (c - char_0))
  end.

(** ** The table a trie stands for *)

(** A forwarding table: the record of each prefix, a prefix being the path
    of its bits. *)
Definition table : Type := list bool -> option route_entry.

Definition table_empty : table := fun _ => None.

Definition table_set (tbl : table) (p : list bool) (v : option route_entry)
  : table :=
  fun q => if list_eq_dec bool_dec q p then v else tbl q.

(** What an operation that succeeds does to the table: an insert binds the
    record to its prefix, a delete unbinds the prefix.  A delete of a prefix
    that is not bound changes nothing, as the [delete_route] that fails. *)
Definition table_step (tbl : table) (o : trie_op) : table :=
  match o with
  | Insert _ r => table_set tbl (path_of (prefix r) (prefix_len r)) (Some r)
  | Delete p len => table_set tbl (path_of p len) None
  end.

Definition table_of (ops : list trie_op) : table :=
  fold_left table_step ops table_empty.

(** The trie [t] holds the table [tbl]: a record is anchored at a path
    exactly when the table binds it there. *)
Definition holds_table (t : trie_node) (tbl : table) : Prop :=
  forall p, leaf_at t p = option_map Some (tbl p).

(** ** More invariants *)

(** How many nodes [insert_route] has to create along a path. *)
Fixpoint missing_nodes (bs : list bool) (t : trie_node) : nat :=
  match bs with
  | [] => O
  | b :: bs' =>
      match child t b with
      | Some c => missing_nodes bs' c
      | None => length bs
      end
  end.

(** A node that is not a leaf has [data = NULL]. *)
Definition nonleaf_no_data (t : trie_node) : Prop :=
  forall p n, find_node p t = Some n -> is_leaf n = false -> data n = None.

(** No node lies deeper than [h] below [t]. *)
Definition height_le (h : nat) (t : trie_node) : Prop :=
  forall p n, find_node p t = Some n -> (length p <= h)%nat.

(** Every cache entry holds what the trie [root] answers for its address. *)
Definition coherent (root : trie_node) (cache : route_cache) : Prop :=
  forall e, In e (entries cache) ->
            route e = lookup_route_optimized root (ip e).

(** The records [bulk_insert_routes] passes to [insert_route], each with the
    heap of its call, from index [i] on. *)
Fixpoint with_heaps (heap_at : Z -> nat) (i : Z) (rs : list route_entry)
  : list (nat * route_entry) :=
  match rs with
  | [] => []
  | r :: rs' => (heap_at i, r) :: with_heaps heap_at (i + 1) rs'
  end.

(** The loop of [bulk_insert_routes] by recursion on the records still to
    insert, [i] being the index of the first of them. *)
Fixpoint bulk_insert_list (heap_at : Z -> nat) (i : Z)
    (rs : list route_entry) (root : trie_node) : trie_node * Z :=
  match rs with
  | [] => (root, 0)
  | r :: rs' =>
      let (root', rc) := insert_route (heap_at i) root r in
      if negb (rc =? 0) then (root', -1)
      else bulk_insert_list heap_at (i + 1) rs' root'
  end.

(** The records a trace frees, in order. *)
Definition freed_records (tr : list free_event) : list route_entry :=
  flat_map (fun e => match e with FreeData r => [r] | FreeNode => [] end) tr.

(** Every record a node of [t] holds has the path of its own prefix, [base]
    being the path from the root to [t]. *)
Definition records_at_own_path (base : list bool) (t : trie_node) : Prop :=
  forall p n r, find_node p t = Some n -> data n = Some r ->
                path_of (prefix r) (prefix_len r) = base ++ p.

(** Every anchored record is anchored at the path of its own prefix. *)
Definition anchored_at_own_path (t : trie_node) : Prop :=
  forall p r, leaf_at t p = Some (Some r) ->
              path_of (prefix r) (prefix_len r) = p.

(** The node [insert_route] steps into: the child if there is one, else the
    node [create_trie_node] returns. *)
Definition child_or_fresh (t : trie_node) (b : bool) : trie_node :=
  match child t b with Some c => c | None => fresh_node end.

(** * Properties *)

(** ** Field access *)

Lemma children_child (t : trie_node) (b : bool) :
  children t (Z.b2z b) = child t b.
Proof. destruct b; reflexivity. Qed.

Lemma child_set_child_same (t : trie_node) (b : bool) (p : option trie_node) :
  child (set_child t b p) b = p.
Proof. destruct b; reflexivity. Qed.

Lemma child_set_child_other (t : trie_node) (b b' : bool) (p : option trie_node) :
  b <> b' -> child (set_child t b p) b' = child t b'.
Proof. destruct b, b'; intros H; try reflexivity; now elim H. Qed.

Lemma set_child_same (t : trie_node) (b : bool) :
  set_child t b (child t b) = t.
Proof. destruct t, b; reflexivity. Qed.

Lemma is_leaf_set_child (t : trie_node) (b : bool) (p : option trie_node) :
  is_leaf (set_child t b p) = is_leaf t.
Proof. destruct b; reflexivity. Qed.

Lemma data_set_child (t : trie_node) (b : bool) (p : option trie_node) :
  data (set_child t b p) = data t.
Proof. destruct b; reflexivity. Qed.

Lemma child_set_data_leaf (t : trie_node) d l (b : bool) :
  child (set_data_leaf t d l) b = child t b.
Proof. destruct b; reflexivity. Qed.

Lemma unnecessary_child (t : trie_node) :
  unnecessary t = true <->
  is_leaf t = false /\ forall b, child t b = None.
Proof.
  unfold unnecessary. split.
  - intros H. apply andb_true_iff in H as [H H1].
    apply andb_true_iff in H as [H H0].
    split; [now apply negb_true_iff in H|].
    intros [|]; simpl.
    + destruct (children1 t); [discriminate | reflexivity].
    + destruct (children0 t); [discriminate | reflexivity].
  - intros [Hl Hc]. rewrite Hl.
    generalize (Hc true), (Hc false). simpl.
    intros -> ->. reflexivity.
Qed.

Lemma unnecessary_has_child (t c : trie_node) (b : bool) :
  child t b = Some c -> unnecessary t = false.
Proof.
  intros H. destruct (unnecessary t) eqn:E; [|reflexivity].
  apply unnecessary_child in E as [_ E]. rewrite E in H. discriminate.
Qed.

(** ** The digits of [binary] are the bits of the address *)

Lemma land_shiftr_1 (a k : Z) :
  0 <= k -> Z.land (Z.shiftr a k) 1 = Z.b2z (Z.testbit a k).
Proof.
  intros Hk. change 1 with (Z.ones 1).
  rewrite Z.land_ones by lia. rewrite Z.shiftr_div_pow2 by lia.
  change (2 ^ 1) with 2. symmetry. apply Z.testbit_spec'. exact Hk.
Qed.

Lemma nth_store_below (buf : list Z) (k j : nat) (v d : Z) :
  (j < k <= length buf)%nat -> nth j (store buf k v) d = nth j buf d.
Proof.
  intros H. unfold store.
  rewrite app_nth1 by (rewrite length_firstn; lia).
  revert j k H. induction buf as [|x buf IH]; intros j k H; simpl in *.
  - lia.
  - destruct k as [|k]; [lia|]. destruct j as [|j]; simpl; [reflexivity|].
    apply IH. lia.
Qed.

Lemma binary_digit (a len i : Z) :
  0 <= len <= 32 -> 0 <= i < len ->
  nth (Z.to_nat i) (ip_to_binary a len) 0 - char_0
  = Z.b2z (Z.testbit a (31 - i)).
Proof.
  intros Hlen Hi. unfold ip_to_binary.
  rewrite nth_store_below by (rewrite length_map, length_seq; lia).
  set (f := fun i0 : nat => _).
  rewrite (nth_indep _ 0 (f 0%nat)) by (rewrite length_map, length_seq; lia).
  rewrite map_nth, seq_nth by lia. unfold f. simpl Nat.add.
  rewrite Z2Nat.id by lia. rewrite land_shiftr_1 by lia.
  destruct (Z.testbit a (31 - i)); reflexivity.
Qed.

(** ** The loops compute the path operations *)

Lemma insert_loop_path (n : nat) : forall (i a len : Z) route heap t,
  0 <= len <= 32 -> 0 <= i -> i + Z.of_nat n = len ->
  insert_loop n i (ip_to_binary a len) route heap t
  = insert_path (path_from a i n) route heap t.
Proof.
  induction n as [|n IH]; intros i a len route heap t Hlen Hi Hn;
    cbn [insert_loop path_from insert_path].
  - reflexivity.
  - rewrite binary_digit by lia. rewrite children_child.
    destruct (child t (Z.testbit a (31 - i))) as [c|] eqn:Hc.
    + rewrite (IH (i + 1) a len) by lia. reflexivity.
    + destruct heap as [|heap]; cbn [create_trie_node].
      * fold (set_child t (Z.testbit a (31 - i)) None).
        rewrite <- Hc, set_child_same. reflexivity.
      * rewrite (IH (i + 1) a len) by lia. reflexivity.
Qed.

Lemma insert_route_path (heap : nat) (t : trie_node) (r : route_entry) :
  0 <= prefix_len r <= 32 ->
  insert_route heap t r
  = insert_path (path_of (prefix r) (prefix_len r)) r heap t.
Proof.
  intros H. unfold insert_route, path_of.
  apply insert_loop_path; lia.
Qed.

Lemma lookup_loop_path (n : nat) : forall (i a : Z) t best,
  0 <= i -> i + Z.of_nat n <= 32 ->
  lookup_loop n i a t best = lookup_path (path_from a i n) t best.
Proof.
  induction n as [|n IH]; intros i a t best Hi Hn;
    cbn [lookup_loop path_from lookup_path].
  - reflexivity.
  - rewrite land_shiftr_1 by lia. rewrite children_child.
    destruct (child t (Z.testbit a (31 - i))) as [c|]; [|reflexivity].
    apply IH; lia.
Qed.

Lemma lookup_route_path (t : trie_node) (a : Z) :
  lookup_route_optimized t a = lookup_path (path_of a 32) t None.
Proof. unfold lookup_route_optimized, path_of. now apply lookup_loop_path. Qed.

Lemma delete_loops_path (n : nat) : forall (i a len : Z) t path,
  0 <= len <= 32 -> 0 <= i -> i + Z.of_nat n = len ->
  match delete_descend n i (ip_to_binary a len) t path with
  | None => None
  | Some (current, path') =>
      if negb (is_leaf current) then None
      else Some (delete_cleanup path' (set_data_leaf current None false) true)
  end
  = match delete_path (path_from a i n) t with
    | None => None
    | Some (t', cleaning) => Some (delete_cleanup path t' cleaning)
    end.
Proof.
  induction n as [|n IH]; intros i a len t path Hlen Hi Hn;
    cbn [delete_descend path_from delete_path].
  - destruct (is_leaf t); reflexivity.
  - rewrite binary_digit by lia. rewrite children_child.
    destruct (child t (Z.testbit a (31 - i))) as [c|]; [|reflexivity].
    rewrite (IH (i + 1) a len) by lia.
    destruct (delete_path (path_from a (i + 1) n) c) as [[c' cl]|];
      [|reflexivity].
    cbn [delete_cleanup]. destruct (cl && unnecessary c'); reflexivity.
Qed.

Lemma delete_route_path (t : trie_node) (a len : Z) :
  0 <= len <= 32 ->
  delete_route t a len
  = match delete_path (path_of a len) t with
    | None => (t, -1)
    | Some (t', _) => (t', 0)
    end.
Proof.
  intros H. unfold delete_route, path_of.
  pose proof (@delete_loops_path (Z.to_nat len) 0 a len t [] H) as E.
  specialize (E ltac:(lia) ltac:(lia)).
  destruct (delete_descend (Z.to_nat len) 0 (ip_to_binary a len) t [])
    as [[cur path']|];
    destruct (delete_path (path_from a 0 (Z.to_nat len)) t) as [[t' cl]|];
    simpl in E.
  - destruct (is_leaf cur); simpl in *; [|discriminate].
    injection E as E. rewrite E. reflexivity.
  - destruct (is_leaf cur); simpl in *; [discriminate | reflexivity].
  - discriminate.
  - reflexivity.
Qed.

(** ** Anchored records and what a lookup sees of them *)

Lemma leaf_at_cons (t : trie_node) (b : bool) (p : list bool) :
  leaf_at t (b :: p)
  = match child t b with None => None | Some c => leaf_at c p end.
Proof. unfold leaf_at. simpl. destruct (child t b); reflexivity. Qed.

Lemma leaf_at_nil (t : trie_node) :
  leaf_at t [] = if is_leaf t then Some (data t) else None.
Proof. reflexivity. Qed.

Lemma deepest_ext f g (bs : list bool) : forall best,
  (forall p, p <> [] -> f p = g p) ->
  deepest f bs best = deepest g bs best.
Proof.
  revert f g. induction bs as [|b bs IH]; intros f g best H; simpl.
  - reflexivity.
  - rewrite (H [b]) by discriminate.
    apply IH. intros p _. apply H. discriminate.
Qed.

Lemma deepest_none f (bs : list bool) : forall best,
  (forall p, p <> [] -> f p = None) -> deepest f bs best = best.
Proof.
  revert f. induction bs as [|b bs IH]; intros f best H; simpl.
  - reflexivity.
  - rewrite (H [b]) by discriminate.
    apply IH. intros p _. apply H. discriminate.
Qed.

Lemma lookup_path_deepest (bs : list bool) : forall t best,
  lookup_path bs t best = deepest (leaf_at t) bs best.
Proof.
  induction bs as [|b bs IH]; intros t best; simpl.
  - reflexivity.
  - rewrite leaf_at_cons. destruct (child t b) as [c|] eqn:Hc.
    + rewrite leaf_at_nil, IH.
      replace (match (if is_leaf c then Some (data c) else None) with
               | Some d => d | None => best end)
        with (if is_leaf c then data c else best)
        by (destruct (is_leaf c); reflexivity).
      apply deepest_ext. intros p _. rewrite leaf_at_cons, Hc. reflexivity.
    + symmetry. apply deepest_none. intros p _.
      rewrite leaf_at_cons, Hc. reflexivity.
Qed.

(** Two tries with the same anchored records below the root answer every
    lookup alike. *)
Lemma lookup_same_leaves (t t' : trie_node) :
  (forall p, p <> [] -> leaf_at t' p = leaf_at t p) ->
  forall a, lookup_route_optimized t' a = lookup_route_optimized t a.
Proof.
  intros H a. rewrite !lookup_route_path, !lookup_path_deepest.
  now apply deepest_ext.
Qed.

Lemma unnecessary_leaf_at (t : trie_node) (p : list bool) :
  unnecessary t = true -> leaf_at t p = None.
Proof.
  intros H. apply unnecessary_child in H as [Hl Hc].
  destruct p as [|b p].
  - rewrite leaf_at_nil, Hl. reflexivity.
  - rewrite leaf_at_cons, Hc. reflexivity.
Qed.

Lemma leaf_at_fresh (p : list bool) : leaf_at fresh_node p = None.
Proof. now apply unnecessary_leaf_at. Qed.

Lemma leaf_at_set_child_nil (t : trie_node) b x :
  leaf_at (set_child t b x) [] = leaf_at t [].
Proof. rewrite !leaf_at_nil, is_leaf_set_child, data_set_child. reflexivity. Qed.

Lemma leaf_at_set_child_cons (t : trie_node) b x b' p :
  leaf_at (set_child t b x) (b' :: p)
  = if Bool.eqb b b'
    then match x with None => None | Some c => leaf_at c p end
    else leaf_at t (b' :: p).
Proof.
  rewrite !leaf_at_cons. destruct (Bool.eqb b b') eqn:E.
  - apply eqb_prop in E. subst b'. rewrite child_set_child_same. reflexivity.
  - apply eqb_false_iff in E. rewrite child_set_child_other by exact E.
    reflexivity.
Qed.

(** [insert_route] returns 0 or -1; on 0 the record is anchored at the end
    of the path and nothing else changes; on -1 no anchored record changes. *)
Lemma insert_path_leaves (bs : list bool) (r : route_entry) :
  forall heap t t' rc,
  insert_path bs r heap t = (t', rc) ->
  (rc = 0 /\ leaf_at t' bs = Some (Some r) /\
   forall p, p <> bs -> leaf_at t' p = leaf_at t p)
  \/ (rc = -1 /\ forall p, leaf_at t' p = leaf_at t p).
Proof.
  induction bs as [|b bs IH]; intros heap t t' rc H; simpl in H.
  - injection H as <- <-. left. split; [reflexivity|]. split; [reflexivity|].
    intros [|b p] Hp; [now elim Hp|].
    rewrite !leaf_at_cons, child_set_data_leaf. reflexivity.
  - destruct (child t b) as [c|] eqn:Hc.
    + destruct (insert_path bs r heap c) as [c' rc'] eqn:Hi.
      injection H as <- <-.
      destruct (IH _ _ _ _ Hi) as [(-> & Hb & Ho) | (-> & Ho)].
      * left. split; [reflexivity|]. split.
        -- rewrite leaf_at_set_child_cons, eqb_reflx. exact Hb.
        -- intros [|b' p] Hp; [apply leaf_at_set_child_nil|].
           rewrite leaf_at_set_child_cons.
           destruct (Bool.eqb b b') eqn:E; [|reflexivity].
           apply eqb_prop in E. subst b'.
           rewrite leaf_at_cons, Hc. apply Ho. congruence.
      * right. split; [reflexivity|].
        intros [|b' p]; [apply leaf_at_set_child_nil|].
        rewrite leaf_at_set_child_cons.
        destruct (Bool.eqb b b') eqn:E; [|reflexivity].
        apply eqb_prop in E. subst b'.
        rewrite leaf_at_cons, Hc. apply Ho.
    + destruct heap as [|heap].
      * injection H as <- <-. right. split; reflexivity.
      * destruct (insert_path bs r heap fresh_node) as [c' rc'] eqn:Hi.
        injection H as <- <-.
        destruct (IH _ _ _ _ Hi) as [(-> & Hb & Ho) | (-> & Ho)].
        -- left. split; [reflexivity|]. split.
           ++ rewrite leaf_at_set_child_cons, eqb_reflx. exact Hb.
           ++ intros [|b' p] Hp; [apply leaf_at_set_child_nil|].
              rewrite leaf_at_set_child_cons.
              destruct (Bool.eqb b b') eqn:E; [|reflexivity].
              apply eqb_prop in E. subst b'.
              rewrite leaf_at_cons, Hc.
              rewrite Ho by congruence. apply leaf_at_fresh.
        -- right. split; [reflexivity|].
           intros [|b' p]; [apply leaf_at_set_child_nil|].
           rewrite leaf_at_set_child_cons.
           destruct (Bool.eqb b b') eqn:E; [|reflexivity].
           apply eqb_prop in E. subst b'.
           rewrite leaf_at_cons, Hc, Ho. apply leaf_at_fresh.
Qed.

(** A successful [delete_route] removes the record anchored at the end of
    the path and no other. *)
Lemma delete_path_leaves (bs : list bool) : forall t t' cleaning,
  delete_path bs t = Some (t', cleaning) ->
  leaf_at t' bs = None /\ forall p, p <> bs -> leaf_at t' p = leaf_at t p.
Proof.
  induction bs as [|b bs IH]; intros t t' cl H; simpl in H.
  - destruct (is_leaf t) eqn:Hl; [|discriminate]. injection H as <- <-.
    split; [reflexivity|].
    intros [|b p] Hp; [now elim Hp|].
    rewrite !leaf_at_cons, child_set_data_leaf. reflexivity.
  - destruct (child t b) as [c|] eqn:Hc; [|discriminate].
    destruct (delete_path bs c) as [[c' cl']|] eqn:Hd; [|discriminate].
    destruct (IH _ _ _ Hd) as [Hb Ho].
    destruct (cl' && unnecessary c') eqn:Hu; injection H as <- <-.
    + apply andb_true_iff in Hu as [_ Hu]. split.
      * rewrite leaf_at_set_child_cons, eqb_reflx. reflexivity.
      * intros [|b' p] Hp; [apply leaf_at_set_child_nil|].
        rewrite leaf_at_set_child_cons.
        destruct (Bool.eqb b b') eqn:E; [|reflexivity].
        apply eqb_prop in E. subst b'.
        rewrite leaf_at_cons, Hc.
        rewrite <- Ho by congruence. symmetry.
        now apply unnecessary_leaf_at.
    + split.
      * rewrite leaf_at_set_child_cons, eqb_reflx. exact Hb.
      * intros [|b' p] Hp; [apply leaf_at_set_child_nil|].
        rewrite leaf_at_set_child_cons.
        destruct (Bool.eqb b b') eqn:E; [|reflexivity].
        apply eqb_prop in E. subst b'.
        rewrite leaf_at_cons, Hc. apply Ho. congruence.
Qed.

(** [delete_route] fails exactly when no record is anchored at the end of
    the path. *)
Lemma delete_path_none (bs : list bool) : forall t,
  delete_path bs t = None <-> leaf_at t bs = None.
Proof.
  induction bs as [|b bs IH]; intros t; simpl.
  - rewrite leaf_at_nil. destruct (is_leaf t); split; congruence.
  - rewrite leaf_at_cons. destruct (child t b) as [c|]; [|tauto].
    rewrite <- IH. destruct (delete_path bs c) as [[c' cl]|].
    + destruct (cl && unnecessary c'); split; discriminate.
    + tauto.
Qed.

(** ** [delete_route]: when it fails and what it leaves *)

Lemma find_node_leaf_at_none (t : trie_node) (bs : list bool) :
  leaf_at t bs = None <->
  find_node bs t = None \/
  exists n, find_node bs t = Some n /\ is_leaf n = false.
Proof.
  unfold leaf_at. destruct (find_node bs t) as [n|].
  - destruct (is_leaf n) eqn:E; split.
    + discriminate.
    + intros [H | (n' & H & H')]; [discriminate|].
      injection H as <-. congruence.
    + intros _. right. exists n. split; [reflexivity | exact E].
    + reflexivity.
  - split; [now left | reflexivity].
Qed.

Lemma find_node_set_child (t : trie_node) b x (p : list bool) :
  find_node (b :: p) (set_child t b x)
  = match x with None => None | Some c => find_node p c end.
Proof. simpl. rewrite child_set_child_same. reflexivity. Qed.

(** After a successful [delete_route] the end node of the path, when the
    clean-up loop has not freed it, has [is_leaf = 0] and [data = NULL]. *)
Lemma delete_path_cleared (bs : list bool) : forall t t' cleaning,
  delete_path bs t = Some (t', cleaning) ->
  forall n, find_node bs t' = Some n -> is_leaf n = false /\ data n = None.
Proof.
  induction bs as [|b bs IH]; intros t t' cl H n Hn; simpl in H.
  - destruct (is_leaf t); [|discriminate]. injection H as <- <-.
    injection Hn as <-. split; reflexivity.
  - destruct (child t b) as [c|] eqn:Hc; [|discriminate].
    destruct (delete_path bs c) as [[c' cl']|] eqn:Hd; [|discriminate].
    destruct (cl' && unnecessary c'); injection H as <- <-;
      rewrite find_node_set_child in Hn; [discriminate|].
    exact (IH _ _ _ Hd _ Hn).
Qed.

(** C5 — Delete raises-iff and atomicity: [delete_route] returns -1
    (NotFound) if and only if a child is missing along the [prefix_len]-bit
    path or the node at its end is not a leaf; when it returns -1 the trie
    is the one it was given; otherwise it returns 0, the node at the end of
    the path was a leaf whose [is_leaf] and [data] the call cleared before
    the clean-up loop, and in the trie returned no record is anchored there:
    that node, if the clean-up loop did not free it, has [is_leaf = 0] and
    [data = NULL]. *)
Theorem delete_route_not_found_iff (t : trie_node) (p len : Z) :
  0 <= len <= 32 ->
  let bs := path_of p len in
  let t' := fst (delete_route t p len) in
  let rc := snd (delete_route t p len) in
  (rc = -1 <->
   find_node bs t = None \/
   exists n, find_node bs t = Some n /\ is_leaf n = false)
  /\ (rc = -1 -> t' = t)
  /\ (rc <> -1 ->
      rc = 0 /\
      (exists current path,
         delete_descend (Z.to_nat len) 0 (ip_to_binary p len) t []
         = Some (current, path) /\
         is_leaf current = true /\
         t' = delete_cleanup path (set_data_leaf current None false) true) /\
      leaf_at t' bs = None /\
      forall n, find_node bs t' = Some n ->
                is_leaf n = false /\ data n = None).
Proof.
  intros Hlen bs t' rc. subst t' rc.
  rewrite <- find_node_leaf_at_none, <- delete_path_none.
  fold bs.
  assert (Hsrc : forall u, snd (delete_route t p len) <> -1 ->
            fst (delete_route t p len) = u ->
            exists current path,
              delete_descend (Z.to_nat len) 0 (ip_to_binary p len) t []
              = Some (current, path) /\
              is_leaf current = true /\
              u = delete_cleanup path (set_data_leaf current None false) true).
  { unfold delete_route. intros u.
    destruct (delete_descend (Z.to_nat len) 0 (ip_to_binary p len) t [])
      as [[cur path]|]; simpl; [|congruence].
    destruct (is_leaf cur) eqn:El; simpl; [|congruence].
    intros _ <-. exists cur, path. split; [reflexivity|].
    split; [exact El | reflexivity]. }
  revert Hsrc. rewrite (delete_route_path t p len Hlen). fold bs.
  destruct (delete_path bs t) as [[u cl]|] eqn:Hd; simpl; intros Hsrc.
  - split; [split; discriminate|]. split; [discriminate|].
    intros _. split; [reflexivity|].
    split; [apply Hsrc; [discriminate | reflexivity]|].
    split; [apply (delete_path_leaves _ _ _ _ Hd)|].
    apply (delete_path_cleared _ _ _ _ Hd).
  - split; [tauto|]. split; [reflexivity|]. intros H. now elim H.
Qed.

Lemma delete_route_not_found_iff_witness :
  0 <= 24 <= 32 /\
  snd (delete_route example_trie (ipv4 10 0 1 0) 24) = 0 /\
  leaf_at (fst (delete_route example_trie (ipv4 10 0 1 0) 24))
          (path_of (ipv4 10 0 1 0) 24) = None.
Proof.
  assert (H : 0 <= 24 <= 32) by lia.
  split; [exact H|].
  destruct (delete_route_not_found_iff example_trie (ipv4 10 0 1 0) 24 H)
    as (_ & _ & H3).
  destruct H3 as (H0 & _ & Hl & _).
  - vm_compute. discriminate.
  - split; [exact H0 | exact Hl].
Defined.

(** ** Paths and bit-prefixes *)

Lemma length_path_from (a : Z) (n : nat) : forall i,
  length (path_from a i n) = n.
Proof. induction n as [|n IH]; intros i; simpl; [|rewrite IH]; reflexivity. Qed.

Lemma length_path_of (a len : Z) : length (path_of a len) = Z.to_nat len.
Proof. apply length_path_from. Qed.

Lemma firstn_path_from (a : Z) (n : nat) : forall i k,
  (k <= n)%nat -> firstn k (path_from a i n) = path_from a i k.
Proof.
  induction n as [|n IH]; intros i k Hk.
  - replace k with O by lia. reflexivity.
  - destruct k as [|k]; [reflexivity|].
    cbn [path_from firstn]. rewrite IH by lia. reflexivity.
Qed.

Lemma firstn_path_of (a len : Z) (k : Z) :
  0 <= k <= len -> firstn (Z.to_nat k) (path_of a len) = path_of a k.
Proof. intros H. apply firstn_path_from. lia. Qed.

Lemma path_from_eq (a b : Z) (n : nat) : forall i,
  path_from a i n = path_from b i n <->
  forall j, i <= j < i + Z.of_nat n ->
            Z.testbit a (31 - j) = Z.testbit b (31 - j).
Proof.
  induction n as [|n IH]; intros i; cbn [path_from].
  - split; [intros _ j Hj; lia | reflexivity].
  - split.
    + intros H j Hj. injection H as H0 H1.
      destruct (Z.eq_dec j i) as [->|Hne]; [exact H0|].
      apply (proj1 (IH (i + 1)) H1). lia.
    + intros H. f_equal; [apply H; lia|].
      apply IH. intros j Hj. apply H. lia.
Qed.

Lemma is_bit_prefix_path (p len a : Z) :
  is_bit_prefix p len a <-> path_of p len = path_of a len.
Proof.
  unfold is_bit_prefix, path_of. rewrite path_from_eq.
  split; intros H j Hj; apply H; lia.
Qed.

Lemma is_bit_prefixb_spec (p len a : Z) :
  is_bit_prefixb p len a = true <-> is_bit_prefix p len a.
Proof.
  unfold is_bit_prefixb, is_bit_prefix. rewrite forallb_forall. split.
  - intros H i Hi. specialize (H (Z.to_nat i)).
    rewrite Z2Nat.id in H by lia. apply eqb_prop, H.
    apply in_seq. lia.
  - intros H x Hx. apply in_seq in Hx.
    rewrite H by lia. apply eqb_reflx.
Qed.

(** On 32-bit values this is the usual reading of "[a] lies in [p/len]":
    the two agree once the [32 - len] low bits are shifted out. *)
Lemma testbit_above_32 (x m : Z) :
  0 <= x < 2 ^ 32 -> 32 <= m -> Z.testbit x m = false.
Proof.
  intros Hx Hm. destruct (Z.eq_dec x 0) as [->|Hne]; [apply Z.bits_0|].
  apply Z.bits_above_log2; [lia|].
  assert (Z.log2 x < 32) by (apply Z.log2_lt_pow2; lia). lia.
Qed.

Lemma is_bit_prefix_shiftr (p len a : Z) :
  0 <= len <= 32 -> 0 <= p < 2 ^ 32 -> 0 <= a < 2 ^ 32 ->
  is_bit_prefix p len a <->
  Z.shiftr p (32 - len) = Z.shiftr a (32 - len).
Proof.
  intros Hlen Hp Ha. split.
  - intros H. apply Z.bits_inj'. intros n Hn.
    rewrite !Z.shiftr_spec by lia.
    destruct (Z_lt_le_dec (n + (32 - len)) 32) as [Hlt|Hge].
    + replace (n + (32 - len)) with (31 - (len - 1 - n)) by lia.
      apply H. lia.
    + rewrite !testbit_above_32 by (assumption || lia). reflexivity.
  - intros H i Hi.
    replace (31 - i) with ((len - 1 - i) + (32 - len)) by lia.
    rewrite <- !Z.shiftr_spec by lia. rewrite H. reflexivity.
Qed.

(** The walk returns the record anchored at the longest non-empty prefix of
    [bs] that has one, or [best] when none has. *)
Lemma deepest_char (bs : list bool) : forall f best,
  (exists k, (1 <= k <= length bs)%nat /\
     f (firstn k bs) = Some (deepest f bs best) /\
     forall j, (k < j <= length bs)%nat -> f (firstn j bs) = None)
  \/ (deepest f bs best = best /\
      forall j, (1 <= j <= length bs)%nat -> f (firstn j bs) = None).
Proof.
  induction bs as [|b bs IH]; intros f best; cbn [deepest length].
  - right. split; [reflexivity|]. intros j Hj. lia.
  - destruct (IH (fun p => f (b :: p))
                 (match f [b] with Some d => d | None => best end))
      as [(k & Hk & Hf & Hn) | (Hd & Hn)].
    + left. exists (S k). split; [lia|]. split; [exact Hf|].
      intros [|j] Hj; [lia|]. apply Hn. lia.
    + destruct (f [b]) as [d|] eqn:Hb.
      * left. exists 1%nat. split; [lia|]. split.
        -- cbn [firstn]. rewrite Hd. exact Hb.
        -- intros [|j] Hj; [lia|]. apply Hn. lia.
      * right. split; [exact Hd|].
        intros [|[|j]] Hj; [lia | exact Hb |]. apply Hn. lia.
Qed.

(** What [lookup_route_optimized] returns, by the records anchored on the
    path of the address. *)
Lemma lookup_char (t : trie_node) (a : Z) :
  (exists k, 1 <= k <= 32 /\
     leaf_at t (path_of a k) = Some (lookup_route_optimized t a) /\
     forall j, k < j <= 32 -> leaf_at t (path_of a j) = None)
  \/ (lookup_route_optimized t a = None /\
      forall j, 1 <= j <= 32 -> leaf_at t (path_of a j) = None).
Proof.
  rewrite lookup_route_path, lookup_path_deepest.
  destruct (deepest_char (path_of a 32) (leaf_at t) None)
    as [(k & Hk & Hf & Hn) | (Hd & Hn)];
    rewrite length_path_of in *.
  - left. exists (Z.of_nat k). split; [lia|].
    rewrite <- (firstn_path_of a 32 (Z.of_nat k)) by lia.
    rewrite Nat2Z.id. split; [exact Hf|].
    intros j Hj. rewrite <- (firstn_path_of a 32 j) by lia.
    apply Hn. lia.
  - right. split; [exact Hd|].
    intros j Hj. rewrite <- (firstn_path_of a 32 j) by lia.
    apply Hn. lia.
Qed.

(** ** Insert then delete *)

Lemma insert_route_leaves (heap : nat) (t : trie_node) (r : route_entry) :
  0 <= prefix_len r <= 32 ->
  let bs := path_of (prefix r) (prefix_len r) in
  let t' := fst (insert_route heap t r) in
  let rc := snd (insert_route heap t r) in
  (rc = 0 /\ leaf_at t' bs = Some (Some r) /\
   forall p, p <> bs -> leaf_at t' p = leaf_at t p)
  \/ (rc = -1 /\ forall p, leaf_at t' p = leaf_at t p).
Proof.
  intros H bs t' rc. subst t' rc. rewrite (insert_route_path heap t r H).
  fold bs. destruct (insert_path bs r heap t) as [u c] eqn:E.
  exact (insert_path_leaves _ _ _ _ _ _ E).
Qed.

Lemma delete_route_leaves (t : trie_node) (p len : Z) :
  0 <= len <= 32 ->
  snd (delete_route t p len) = 0 ->
  let bs := path_of p len in
  let t' := fst (delete_route t p len) in
  leaf_at t bs <> None /\ leaf_at t' bs = None /\
  forall q, q <> bs -> leaf_at t' q = leaf_at t q.
Proof.
  intros H. rewrite (delete_route_path t p len H). intros Hrc bs. fold bs in Hrc.
  fold bs. destruct (delete_path bs t) as [[u cl]|] eqn:E; simpl in *;
    [|discriminate].
  split.
  - intros Hn. apply delete_path_none in Hn. congruence.
  - exact (delete_path_leaves _ _ _ _ E).
Qed.

(** C2 as stated fails: on a trie that holds 10.0.0.0/8, inserting another
    record for 10.0.0.0/8 and deleting 10.0.0.0/8 (both calls return 0)
    leaves a trie in which 10.2.3.4 resolves to nothing, while it resolved
    to the first record before the insert. *)
Lemma insert_delete_loses_overwritten_route :
  let t := run_inserts [route_10_8] in
  let r := rt (ipv4 10 0 0 0) 8 9 in
  let t1 := fst (insert_route 32 t r) in
  let t2 := fst (delete_route t1 (prefix r) (prefix_len r)) in
  snd (insert_route 32 t r) = 0 /\
  snd (delete_route t1 (prefix r) (prefix_len r)) = 0 /\
  lookup_route_optimized t (ipv4 10 2 3 4) = Some route_10_8 /\
  lookup_route_optimized t2 (ipv4 10 2 3 4) = None.
Proof. vm_compute. repeat split. Qed.

(** C2 (amended) — Insert/delete round-trip: for every trie state in which
    no record is anchored at the exact node of [r]'s (prefix, prefix_len),
    every record [r] with prefix_len in [0,32] and every address [a],
    [insert_route(r)] followed by a [delete_route(r.prefix, r.prefix_len)]
    that returns 0 yields a trie in which [lookup_route_optimized(a)]
    returns what it returned before the insert. *)
Theorem insert_delete_round_trip (heap : nat) (t : trie_node)
    (r : route_entry) (a : Z) :
  0 <= prefix_len r <= 32 ->
  leaf_at t (path_of (prefix r) (prefix_len r)) = None ->
  let t1 := fst (insert_route heap t r) in
  snd (delete_route t1 (prefix r) (prefix_len r)) = 0 ->
  lookup_route_optimized
    (fst (delete_route t1 (prefix r) (prefix_len r))) a
  = lookup_route_optimized t a.
Proof.
  intros Hlen Hfree t1 Hdel.
  apply lookup_same_leaves. intros p _.
  destruct (delete_route_leaves t1 (prefix r) (prefix_len r) Hlen Hdel) as (_ & Hb & Ho).
  assert (Hins : forall q, q <> path_of (prefix r) (prefix_len r) ->
                           leaf_at t1 q = leaf_at t q).
  { destruct (insert_route_leaves heap t r Hlen) as [(_ & _ & H) | (_ & H)];
      [exact H | intros q _; apply H]. }
  destruct (list_eq_dec bool_dec p (path_of (prefix r) (prefix_len r)))
    as [->|Hne].
  - rewrite Hb, Hfree. reflexivity.
  - rewrite Ho by exact Hne. now apply Hins.
Qed.

Lemma insert_delete_round_trip_witness :
  0 <= prefix_len route_10_0_1_24 <= 32 /\
  lookup_route_optimized
    (fst (delete_route
            (fst (insert_route 32 (run_inserts [route_10_8]) route_10_0_1_24))
            (prefix route_10_0_1_24) (prefix_len route_10_0_1_24)))
    (ipv4 10 0 1 5)
  = lookup_route_optimized (run_inserts [route_10_8]) (ipv4 10 0 1 5).
Proof.
  split; [simpl; lia|].
  apply insert_delete_round_trip.
  - simpl; lia.
  - vm_compute. reflexivity.
  - vm_compute. reflexivity.
Defined.

(** ** Overwriting a record *)

(** C3 as stated fails: on a trie that holds 10.0.1.0/24, two records for
    10.0.0.0/8 are inserted one after the other; 10.0.1.5 matches
    10.0.0.0/8, and its lookup returns the /24 record, not the second
    record. *)
Lemma overwrite_hidden_by_longer_prefix :
  let t := run_inserts [route_10_0_1_24] in
  let r1 := rt (ipv4 10 0 0 0) 8 1 in
  let r2 := rt (ipv4 10 0 0 0) 8 5 in
  let t1 := fst (insert_route 32 t r1) in
  let t2 := fst (insert_route 32 t1 r2) in
  snd (insert_route 32 t r1) = 0 /\
  snd (insert_route 32 t1 r2) = 0 /\
  is_bit_prefix (prefix r2) (prefix_len r2) (ipv4 10 0 1 5) /\
  lookup_route_optimized t2 (ipv4 10 0 1 5) <> Some r2.
Proof.
  cbv zeta. split; [vm_compute; reflexivity|].
  split; [vm_compute; reflexivity|].
  split; [apply is_bit_prefixb_spec; vm_compute; reflexivity|].
  vm_compute. discriminate.
Qed.

Lemma leaf_at_find_node (t : trie_node) (bs : list bool) d :
  leaf_at t bs = Some d ->
  exists n, find_node bs t = Some n /\ is_leaf n = true /\ data n = d.
Proof.
  unfold leaf_at. destruct (find_node bs t) as [n|]; [|discriminate].
  destruct (is_leaf n) eqn:E; [|discriminate].
  intros H. injection H as <-. exists n. repeat split. exact E.
Qed.

(** C3 (amended) — Overwrite semantics: for every trie state and every pair
    of records with identical (prefix, prefix_len), prefix_len in [1,32],
    after inserting the first and then the second (the second call
    returning 0) the exact node is a leaf holding the second record, and
    the lookup of every address the prefix matches returns the second
    record whenever no longer prefix matching the address is anchored in
    the trie. *)
Theorem overwrite_last_writer_wins (h1 h2 : nat) (t : trie_node)
    (r1 r2 : route_entry) :
  1 <= prefix_len r2 <= 32 ->
  prefix r1 = prefix r2 -> prefix_len r1 = prefix_len r2 ->
  let t1 := fst (insert_route h1 t r1) in
  let t2 := fst (insert_route h2 t1 r2) in
  snd (insert_route h2 t1 r2) = 0 ->
  (exists n, find_node (path_of (prefix r2) (prefix_len r2)) t2 = Some n /\
             is_leaf n = true /\ data n = Some r2)
  /\ forall a,
       is_bit_prefix (prefix r2) (prefix_len r2) a ->
       (forall k, prefix_len r2 < k <= 32 -> leaf_at t2 (path_of a k) = None) ->
       lookup_route_optimized t2 a = Some r2.
Proof.
  intros Hlen Hp Hl t1 t2 Hrc.
  assert (Hleaf : leaf_at t2 (path_of (prefix r2) (prefix_len r2))
                  = Some (Some r2)).
  { destruct (insert_route_leaves h2 t1 r2) as [(_ & H & _) | (H & _)];
      [lia | exact H |].
    fold t1 in H. rewrite Hrc in H. discriminate. }
  split; [now apply leaf_at_find_node|].
  intros a Hm Hlong. apply is_bit_prefix_path in Hm. rewrite Hm in Hleaf.
  destruct (lookup_char t2 a) as [(k & Hk & Hf & Hn) | (_ & Hn)].
  - destruct (Z.lt_trichotomy k (prefix_len r2)) as [Hlt | [-> | Hgt]].
    + rewrite Hn in Hleaf by lia. discriminate.
    + rewrite Hf in Hleaf. now injection Hleaf.
    + rewrite Hlong in Hf by lia. discriminate.
  - rewrite Hn in Hleaf by lia. discriminate.
Qed.

Lemma overwrite_last_writer_wins_witness :
  let r1 := rt (ipv4 10 0 0 0) 8 1 in
  let r2 := rt (ipv4 10 0 0 0) 8 5 in
  1 <= prefix_len r2 <= 32 /\
  lookup_route_optimized
    (fst (insert_route 32 (fst (insert_route 32 example_trie r1)) r2))
    (ipv4 10 2 3 4) = Some r2.
Proof.
  cbv zeta. split; [simpl; lia|].
  refine (proj2 (overwrite_last_writer_wins 32%nat 32%nat example_trie
                   (rt (ipv4 10 0 0 0) 8 1) (rt (ipv4 10 0 0 0) 8 5)
                   _ _ _ _) (ipv4 10 2 3 4) _ _).
  - simpl; lia.
  - reflexivity.
  - reflexivity.
  - vm_compute. reflexivity.
  - apply is_bit_prefixb_spec. vm_compute. reflexivity.
  - intros k Hk.
    assert (E : k = 9 \/ k = 10 \/ k = 11 \/ k = 12 \/ k = 13 \/ k = 14 \/
                k = 15 \/ k = 16 \/ k = 17 \/ k = 18 \/ k = 19 \/ k = 20 \/
                k = 21 \/ k = 22 \/ k = 23 \/ k = 24 \/ k = 25 \/ k = 26 \/
                k = 27 \/ k = 28 \/ k = 29 \/ k = 30 \/ k = 31 \/ k = 32)
      by (simpl in Hk; lia).
    repeat (destruct E as [-> | E]; [vm_compute; reflexivity|]).
    subst k. vm_compute. reflexivity.
Defined.

(** ** The pruning invariant *)

Lemma pruned_below_child (t : trie_node) :
  pruned_below t <-> forall b c, child t b = Some c -> pruned c.
Proof.
  split.
  - intros H b c Hc p n Hn. apply (H (b :: p)); [discriminate|].
    simpl. rewrite Hc. exact Hn.
  - intros H [|b p] n Hp Hn; [now elim Hp|].
    simpl in Hn. destruct (child t b) as [c|] eqn:Hc; [|discriminate].
    exact (H b c Hc p n Hn).
Qed.

Lemma pruned_split (t : trie_node) :
  pruned t <-> unnecessary t = false /\ pruned_below t.
Proof.
  split.
  - intros H. split; [now apply (H [])|]. intros p n _. apply H.
  - intros [Hu Hb] [|b p] n Hn.
    + injection Hn as <-. exact Hu.
    + apply (Hb (b :: p)); [discriminate | exact Hn].
Qed.

Lemma pruned_below_set_child (t : trie_node) b x :
  pruned_below t ->
  (forall c, x = Some c -> pruned c) ->
  pruned_below (set_child t b x).
Proof.
  intros Ht Hx. apply pruned_below_child. intros b' c Hc.
  destruct (bool_dec b b') as [<-|Hne].
  - rewrite child_set_child_same in Hc. now apply Hx.
  - rewrite child_set_child_other in Hc by exact Hne.
    exact (proj1 (pruned_below_child t) Ht b' c Hc).
Qed.

Lemma pruned_below_fresh : pruned_below fresh_node.
Proof. intros [|[|] p] n Hp Hn; [now elim Hp | discriminate | discriminate]. Qed.

Lemma insert_path_pruned (bs : list bool) (r : route_entry) :
  forall heap t t',
  pruned_below t -> insert_path bs r heap t = (t', 0) -> pruned t'.
Proof.
  induction bs as [|b bs IH]; intros heap t t' Ht H; simpl in H.
  - injection H as <-. apply pruned_split. split; [reflexivity|].
    apply pruned_below_child. intros b c Hc.
    rewrite child_set_data_leaf in Hc.
    exact (proj1 (pruned_below_child t) Ht b c Hc).
  - assert (Hgoal : forall c', pruned c' ->
                      pruned (set_child t b (Some c'))).
    { intros c' Hc'. apply pruned_split. split.
      - apply (unnecessary_has_child _ c' b), child_set_child_same.
      - apply pruned_below_set_child; [exact Ht|].
        intros c E. injection E as <-. exact Hc'. }
    destruct (child t b) as [c|] eqn:Hc.
    + destruct (insert_path bs r heap c) as [c' rc] eqn:Hi.
      injection H as <- ->. apply Hgoal.
      apply (IH heap c c'); [|exact Hi].
      apply pruned_split, (proj1 (pruned_below_child t) Ht b c Hc).
    + destruct heap as [|heap]; [discriminate|].
      destruct (insert_path bs r heap fresh_node) as [c' rc] eqn:Hi.
      injection H as <- ->. apply Hgoal.
      apply (IH heap fresh_node c'); [apply pruned_below_fresh | exact Hi].
Qed.

Lemma delete_path_pruned (bs : list bool) : forall t t' cleaning,
  pruned_below t -> delete_path bs t = Some (t', cleaning) ->
  pruned_below t' /\ (cleaning = false -> unnecessary t' = false).
Proof.
  induction bs as [|b bs IH]; intros t t' cl Ht H; simpl in H.
  - destruct (is_leaf t); [|discriminate]. injection H as <- <-.
    split; [|discriminate].
    apply pruned_below_child. intros b c Hc.
    rewrite child_set_data_leaf in Hc.
    exact (proj1 (pruned_below_child t) Ht b c Hc).
  - destruct (child t b) as [c|] eqn:Hc; [|discriminate].
    destruct (delete_path bs c) as [[c' cl']|] eqn:Hd; [|discriminate].
    destruct (IH c c' cl') as [Hb Hu]; [|exact Hd|].
    { apply pruned_split, (proj1 (pruned_below_child t) Ht b c Hc). }
    destruct (cl' && unnecessary c') eqn:E; injection H as <- <-.
    + split; [|discriminate].
      apply pruned_below_set_child; [exact Ht | discriminate].
    + split.
      * apply pruned_below_set_child; [exact Ht|].
        intros x Hx. injection Hx as <-. apply pruned_split.
        split; [|exact Hb].
        destruct cl'; [exact E | now apply Hu].
      * intros _. apply (unnecessary_has_child _ c' b), child_set_child_same.
Qed.

Lemma apply_op_pruned (t : trie_node) (o : trie_op) :
  op_in_range o ->
  match o with Insert _ _ => snd (apply_op t o) = 0 | Delete _ _ => True end ->
  pruned_below t -> pruned_below (fst (apply_op t o)).
Proof.
  destruct o as [heap r | p len]; cbn [apply_op op_in_range]; intros Hr Hs Ht.
  - rewrite (insert_route_path heap t r Hr) in *.
    destruct (insert_path (path_of (prefix r) (prefix_len r)) r heap t)
      as [t' rc] eqn:E.
    simpl in *. subst rc.
    exact (proj2 (proj1 (pruned_split t')
                        (insert_path_pruned _ _ _ _ _ Ht E))).
  - rewrite (delete_route_path t p len Hr).
    destruct (delete_path (path_of p len) t) as [[t' cl]|] eqn:E; simpl.
    + exact (proj1 (delete_path_pruned _ _ _ _ Ht E)).
    + exact Ht.
Qed.

Lemma run_ops_pruned (ops : list trie_op) : forall t,
  Forall op_in_range ops -> inserts_succeed ops t ->
  pruned_below t -> pruned_below (run_ops ops t).
Proof.
  induction ops as [|o ops IH]; intros t Hr Hs Ht.
  - exact Ht.
  - inversion Hr as [|? ? Ho Hr']; subst. destruct Hs as [Hs Hs'].
    unfold run_ops. cbn [fold_left]. apply IH; [exact Hr' | exact Hs'|].
    now apply apply_op_pruned.
Qed.

(** C4 as stated fails twice.  The root of the empty trie is itself
    non-leaf and childless (and is again so after any insert followed by
    its delete: the clean-up loop never frees the root).  And an
    [insert_route] of 10.0.0.0/8 that is given three nodes before [malloc]
    fails returns -1 and leaves, three levels down, a node that is non-leaf
    and childless. *)
Lemma pruning_invariant_fails :
  (reachable (run_ops [] empty_trie) empty_trie /\
   unnecessary empty_trie = true)
  /\ (let ops := [Insert 3 route_10_8] in
      Forall op_in_range ops /\
      snd (apply_op empty_trie (Insert 3 route_10_8)) = -1 /\
      exists n, reachable_below (run_ops ops empty_trie) n /\
                unnecessary n = true).
Proof.
  split.
  - split; [exists []; reflexivity | reflexivity].
  - cbv zeta. split; [repeat constructor; simpl; lia|].
    split; [vm_compute; reflexivity|].
    exists fresh_node. split; [|reflexivity].
    exists [false; false; false]. split; [discriminate|].
    vm_compute. reflexivity.
Qed.

(** C4 (amended) — Pruning invariant: starting from an empty trie, after
    every sequence of [insert_route] and [delete_route] operations (prefix
    lengths in [0,32]) in which every [insert_route] returns 0, no node
    reachable from the root other than the root itself is simultaneously
    non-leaf and childless. *)
Theorem pruning_invariant (ops : list trie_op) :
  Forall op_in_range ops ->
  inserts_succeed ops empty_trie ->
  forall n, reachable_below (run_ops ops empty_trie) n ->
            unnecessary n = false.
Proof.
  intros Hr Hs n (p & Hp & Hn).
  exact (run_ops_pruned ops empty_trie Hr Hs pruned_below_fresh p n Hp Hn).
Qed.

Lemma pruning_invariant_witness :
  let ops := [Insert 32 route_10_8; Insert 32 route_10_0_1_24;
              Delete (ipv4 10 0 1 0) 24] in
  Forall op_in_range ops /\ inserts_succeed ops empty_trie /\
  forall n, reachable_below (run_ops ops empty_trie) n ->
            unnecessary n = false.
Proof.
  cbv zeta.
  assert (Hr : Forall op_in_range
                 [Insert 32 route_10_8; Insert 32 route_10_0_1_24;
                  Delete (ipv4 10 0 1 0) 24])
    by (repeat constructor; simpl; lia).
  assert (Hs : inserts_succeed
                 [Insert 32 route_10_8; Insert 32 route_10_0_1_24;
                  Delete (ipv4 10 0 1 0) 24] empty_trie)
    by (vm_compute; repeat split).
  split; [exact Hr|]. split; [exact Hs|].
  exact (pruning_invariant _ Hr Hs).
Defined.

(** ** Records sit at the depth of their prefix length *)

Lemma delete_route_cases (t : trie_node) (p len : Z) :
  0 <= len <= 32 ->
  snd (delete_route t p len) = 0 \/
  (snd (delete_route t p len) = -1 /\ fst (delete_route t p len) = t).
Proof.
  intros H. rewrite (delete_route_path t p len H).
  destruct (delete_path (path_of p len) t) as [[t' cl]|];
    [left | right; split]; reflexivity.
Qed.

Lemma anchored_at_depth_fresh : anchored_at_depth fresh_node.
Proof. intros p d H. rewrite leaf_at_fresh in H. discriminate. Qed.

Lemma apply_op_anchored (t : trie_node) (o : trie_op) :
  op_in_range o -> anchored_at_depth t ->
  anchored_at_depth (fst (apply_op t o)).
Proof.
  destruct o as [heap r | p len]; cbn [apply_op op_in_range]; intros Hr Ht q d.
  - destruct (insert_route_leaves heap t r Hr) as [(_ & Hb & Ho) | (_ & Ho)].
    + destruct (list_eq_dec bool_dec q (path_of (prefix r) (prefix_len r)))
        as [->|Hne].
      * rewrite Hb. intros E. injection E as <-. exists r.
        split; [reflexivity|]. rewrite length_path_of. lia.
      * rewrite Ho by exact Hne. apply Ht.
    + rewrite Ho. apply Ht.
  - destruct (delete_route_cases t p len Hr) as [H0 | [_ ->]]; [|apply Ht].
    destruct (delete_route_leaves t p len Hr H0) as (_ & Hb & Ho).
    destruct (list_eq_dec bool_dec q (path_of p len)) as [->|Hne].
    + rewrite Hb. discriminate.
    + rewrite Ho by exact Hne. apply Ht.
Qed.

Lemma run_ops_anchored (ops : list trie_op) : forall t,
  Forall op_in_range ops -> anchored_at_depth t ->
  anchored_at_depth (run_ops ops t).
Proof.
  induction ops as [|o ops IH]; intros t Hr Ht; [exact Ht|].
  inversion Hr as [|? ? Ho Hr']; subst.
  unfold run_ops. cbn [fold_left]. apply IH; [exact Hr'|].
  now apply apply_op_anchored.
Qed.

Lemma lookup_ignores_root_record (t : trie_node) d l (a : Z) :
  lookup_route_optimized (set_data_leaf t d l) a = lookup_route_optimized t a.
Proof.
  apply lookup_same_leaves. intros [|b p] Hp; [now elim Hp|].
  rewrite !leaf_at_cons, child_set_data_leaf. reflexivity.
Qed.

(** C9 — Default route invisibility: [insert_route] of a record with
    [prefix_len = 0] returns 0 and attaches the record to the root (no
    descent, no allocation); the result of [lookup_route_optimized] does not
    depend on the root's [is_leaf] and [data], for every address; hence in
    every trie built from the empty one by inserts and deletes (prefix
    lengths in [0,32]) no lookup returns a record of prefix length 0. *)
Theorem default_route_invisible :
  (forall heap t r, prefix_len r = 0 ->
     insert_route heap t r = (set_data_leaf t (Some r) true, 0))
  /\ (forall t d l a,
        lookup_route_optimized (set_data_leaf t d l) a
        = lookup_route_optimized t a)
  /\ (forall ops a r,
        Forall op_in_range ops ->
        lookup_route_optimized (run_ops ops empty_trie) a = Some r ->
        1 <= prefix_len r <= 32).
Proof.
  split; [|split].
  - intros heap t r H. unfold insert_route. rewrite H. reflexivity.
  - exact lookup_ignores_root_record.
  - intros ops a r Hr Hl.
    pose proof (run_ops_anchored ops empty_trie Hr anchored_at_depth_fresh)
      as Hd.
    destruct (lookup_char (run_ops ops empty_trie) a)
      as [(k & Hk & Hf & _) | (Hn & _)]; [|congruence].
    rewrite Hl in Hf. destruct (Hd _ _ Hf) as (r' & E & Hlen).
    injection E as <-. rewrite length_path_of in Hlen. lia.
Qed.

Lemma default_route_invisible_witness :
  let ops := [Insert 0 (rt 0 0 7); Insert 32 route_10_8] in
  Forall op_in_range ops /\
  lookup_route_optimized (run_ops ops empty_trie) (ipv4 10 2 3 4)
  = Some route_10_8 /\
  1 <= prefix_len route_10_8 <= 32.
Proof.
  cbv zeta.
  assert (Hr : Forall op_in_range [Insert 0 (rt 0 0 7); Insert 32 route_10_8])
    by (repeat constructor; simpl; lia).
  assert (Hl : lookup_route_optimized
                 (run_ops [Insert 0 (rt 0 0 7); Insert 32 route_10_8]
                          empty_trie) (ipv4 10 2 3 4)
               = Some route_10_8)
    by (vm_compute; reflexivity).
  split; [exact Hr|]. split; [exact Hl|].
  exact (proj2 (proj2 default_route_invisible) _ _ _ Hr Hl).
Defined.

(** ** An insert that runs out of memory *)

Lemma insert_path_blank (bs : list bool) (r : route_entry) :
  forall heap c rc,
  insert_path bs r heap fresh_node = (c, rc) -> rc <> 0 -> blank_chain c.
Proof.
  induction bs as [|b bs IH]; intros heap c rc H Hrc; simpl in H.
  - injection H as <- <-. now elim Hrc.
  - replace (child fresh_node b) with (@None trie_node) in H
      by (destruct b; reflexivity).
    destruct heap as [|heap].
    + injection H as <- <-. constructor.
    + destruct (insert_path bs r heap fresh_node) as [c' rc'] eqn:Hi.
      injection H as <- <-. constructor. exact (IH _ _ _ Hi Hrc).
Qed.

Lemma insert_path_grafted (bs : list bool) (r : route_entry) :
  forall heap t t' rc,
  insert_path bs r heap t = (t', rc) -> rc <> 0 -> grafted t t'.
Proof.
  induction bs as [|b bs IH]; intros heap t t' rc H Hrc; simpl in H.
  - injection H as <- <-. now elim Hrc.
  - destruct (child t b) as [c|] eqn:Hc.
    + destruct (insert_path bs r heap c) as [c' rc'] eqn:Hi.
      injection H as <- <-.
      apply (grafted_below t b c c' Hc). exact (IH _ _ _ _ Hi Hrc).
    + destruct heap as [|heap].
      * injection H as <- <-. constructor.
      * destruct (insert_path bs r heap fresh_node) as [c' rc'] eqn:Hi.
        injection H as <- <-.
        apply (grafted_new t b c' Hc).
        exact (insert_path_blank _ _ _ _ _ Hi Hrc).
Qed.

Lemma insert_path_enough_heap (bs : list bool) (r : route_entry) :
  forall heap t, (length bs <= heap)%nat ->
  snd (insert_path bs r heap t) = 0.
Proof.
  induction bs as [|b bs IH]; intros heap t H; simpl in *.
  - reflexivity.
  - destruct (child t b) as [c|].
    + specialize (IH heap c ltac:(lia)).
      destruct (insert_path bs r heap c). exact IH.
    + destruct heap as [|heap]; [lia|].
      specialize (IH heap fresh_node ltac:(lia)).
      destruct (insert_path bs r heap fresh_node). exact IH.
Qed.

Lemma insert_route_enough_heap (heap : nat) (t : trie_node) (r : route_entry) :
  0 <= prefix_len r <= 32 -> (Z.to_nat (prefix_len r) <= heap)%nat ->
  snd (insert_route heap t r) = 0.
Proof.
  intros H Hh. rewrite (insert_route_path heap t r H).
  apply insert_path_enough_heap. rewrite length_path_of. exact Hh.
Qed.

(** C8 — Partial-insert safety: when [insert_route] does not return 0 it
    returns -1, having run out of nodes before the end of the path; the trie
    it leaves is the one it was given with, at most, one chain of nodes hung
    in a slot that was [NULL], each node as [create_trie_node] initialises
    it ([is_leaf = 0], [data = NULL]) and linked to the next of the chain
    only; no anchored record and no lookup result changes; and a later
    [insert_route] that has memory returns 0 and anchors its record. *)
Theorem partial_insert_safe (heap : nat) (t : trie_node) (r : route_entry) :
  0 <= prefix_len r <= 32 ->
  snd (insert_route heap t r) <> 0 ->
  let t' := fst (insert_route heap t r) in
  snd (insert_route heap t r) = -1
  /\ (heap < Z.to_nat (prefix_len r))%nat
  /\ grafted t t'
  /\ (forall p, leaf_at t' p = leaf_at t p)
  /\ (forall a, lookup_route_optimized t' a = lookup_route_optimized t a)
  /\ (forall r2, 0 <= prefix_len r2 <= 32 ->
        snd (insert_route 32 t' r2) = 0 /\
        leaf_at (fst (insert_route 32 t' r2))
                (path_of (prefix r2) (prefix_len r2)) = Some (Some r2)).
Proof.
  intros Hlen Hrc t'.
  assert (Hl : snd (insert_route heap t r) = -1 /\
               forall p, leaf_at t' p = leaf_at t p).
  { destruct (insert_route_leaves heap t r Hlen) as [(H0 & _) | H];
      [congruence | exact H]. }
  destruct Hl as [Hm Hl]. split; [exact Hm|]. split; [|split; [|split; [|split]]].
  - destruct (Nat.lt_ge_cases heap (Z.to_nat (prefix_len r))) as [H|H];
      [exact H|].
    elim Hrc. now apply insert_route_enough_heap.
  - subst t'. revert Hrc. rewrite (insert_route_path heap t r Hlen).
    destruct (insert_path (path_of (prefix r) (prefix_len r)) r heap t)
      as [u rc] eqn:E.
    simpl. exact (insert_path_grafted _ _ _ _ _ _ E).
  - exact Hl.
  - apply lookup_same_leaves. intros p _. apply Hl.
  - intros r2 H2.
    assert (H0 : snd (insert_route 32 t' r2) = 0)
      by (apply insert_route_enough_heap; lia).
    split; [exact H0|].
    destruct (insert_route_leaves 32 t' r2 H2) as [(_ & H & _) | (H & _)];
      [exact H | congruence].
Qed.

Lemma partial_insert_safe_witness :
  0 <= prefix_len route_10_0_1_24 <= 32 /\
  snd (insert_route 1 example_trie (rt (ipv4 10 0 2 0) 24 3)) = -1 /\
  lookup_route_optimized
    (fst (insert_route 1 example_trie (rt (ipv4 10 0 2 0) 24 3)))
    (ipv4 10 0 2 9)
  = lookup_route_optimized example_trie (ipv4 10 0 2 9).
Proof.
  split; [simpl; lia|].
  assert (Hlen : 0 <= prefix_len (rt (ipv4 10 0 2 0) 24 3) <= 32)
    by (simpl; lia).
  assert (Hrc : snd (insert_route 1 example_trie (rt (ipv4 10 0 2 0) 24 3))
                <> 0)
    by (vm_compute; discriminate).
  destruct (partial_insert_safe 1 example_trie (rt (ipv4 10 0 2 0) 24 3)
              Hlen Hrc) as (H1 & _ & _ & _ & H5 & _).
  split; [exact H1 | apply H5].
Defined.

(** ** The lookup cache *)

Lemma cache_scan_find (cells : list route_cache_entry) (ip0 now ttl : Z) :
  cache_scan cells ip0 now ttl
  = option_map route (find (fresh_for ip0 now ttl) cells).
Proof.
  induction cells as [|e cells IH]; simpl; [reflexivity|].
  unfold fresh_for at 1.
  destruct ((ip e =? ip0) && (now - timestamp e <? ttl)); [reflexivity|].
  exact IH.
Qed.

Lemma fresh_for_true (ip0 now ttl : Z) (e : route_cache_entry) :
  fresh_for ip0 now ttl e = true <-> ip e = ip0 /\ now - timestamp e < ttl.
Proof.
  unfold fresh_for. rewrite andb_true_iff, Z.eqb_eq, Z.ltb_lt. reflexivity.
Qed.

Lemma find_none_iff {A : Type} (f : A -> bool) (l : list A) :
  find f l = None <-> forall x, In x l -> f x = false.
Proof.
  split; [apply find_none|].
  induction l as [|x l IH]; intros H; simpl; [reflexivity|].
  rewrite (H x) by (now left). apply IH. intros y Hy. apply H. now right.
Qed.

(** A hit: the scan stops at the first entry that passes its test. *)
Lemma lookup_with_cache_hit (now : Z) (root : trie_node) (cache : route_cache)
    (ip0 ttl : Z) (e0 : route_cache_entry) :
  find (fresh_for ip0 now ttl) (entries cache) = Some e0 ->
  lookup_with_cache now root cache ip0 ttl = mk_result (route e0) cache [].
Proof.
  intros H. unfold lookup_with_cache. rewrite cache_scan_find, H. reflexivity.
Qed.

(** A miss: the trie is asked, and its answer is stored when there is one
    and room for it. *)
Lemma lookup_with_cache_miss (now : Z) (root : trie_node) (cache : route_cache)
    (ip0 ttl : Z) :
  find (fresh_for ip0 now ttl) (entries cache) = None ->
  lookup_with_cache now root cache ip0 ttl
  = let r := lookup_route_optimized root ip0 in
    mk_result r
      (match r with
       | Some _ =>
           if size cache <? capacity cache
           then mk_cache (entries cache ++ [mk_entry ip0 r now])
                         (capacity cache)
           else cache
       | None => cache
       end)
      [ip0].
Proof.
  intros H. unfold lookup_with_cache. rewrite cache_scan_find, H.
  cbv zeta. simpl option_map. cbv iota.
  destruct (lookup_route_optimized root ip0); [|reflexivity].
  destruct (size cache <? capacity cache); reflexivity.
Qed.

(** C6 as stated fails when the cache holds two young entries for the
    address.  The cache below is the one two calls leave (a miss at time 0,
    then, 10.0.0.0/16 having been added to the trie, a miss at time 5 with
    a time to live of 3).  At time 6 with a time to live of 10 its second
    entry is for the address and younger than the time to live, and the
    call returns the first entry's route, not that entry's. *)
Lemma cache_hit_is_first_young_entry :
  let a := ipv4 10 0 0 9 in
  let r8 := route_10_8 in
  let r16 := rt (ipv4 10 0 0 0) 16 4 in
  let cache :=
    run_cache [mk_call 0 (run_inserts [r8]) a 3;
               mk_call 5 (run_inserts [r8; r16]) a 3]
              (create_route_cache 4) in
  let e2 := mk_entry a (Some r16) 5 in
  In e2 (entries cache) /\ ip e2 = a /\ 6 - timestamp e2 < 10 /\
  returned (lookup_with_cache 6 (run_inserts [r8; r16]) cache a 10)
  <> route e2.
Proof.
  cbv zeta. split; [vm_compute; right; left; reflexivity|].
  split; [reflexivity|]. split; [simpl; lia|].
  vm_compute. discriminate.
Qed.

(** C6 (amended) — Cache TTL semantics: for every cache state, trie,
    address and ttl, if the cache holds an entry for the address whose age
    [now - timestamp] is strictly less than ttl, [lookup_with_cache] returns
    the route of the first such entry in the order of the array, without
    invoking the trie lookup (whatever the trie is) and without changing
    the cache; if every entry for the address has age >= ttl, or there is
    none, it invokes the trie lookup once and returns its result. *)
Theorem cache_ttl_semantics (now : Z) (root : trie_node) (cache : route_cache)
    (ip0 ttl : Z) :
  (forall e, In e (entries cache) -> ip e = ip0 -> now - timestamp e < ttl ->
     exists e0,
       find (fresh_for ip0 now ttl) (entries cache) = Some e0 /\
       In e0 (entries cache) /\ ip e0 = ip0 /\ now - timestamp e0 < ttl /\
       forall root',
         lookup_with_cache now root' cache ip0 ttl
         = mk_result (route e0) cache [])
  /\ ((forall e, In e (entries cache) -> ip e = ip0 ->
                 ttl <= now - timestamp e) ->
      returned (lookup_with_cache now root cache ip0 ttl)
      = lookup_route_optimized root ip0 /\
      trie_queries (lookup_with_cache now root cache ip0 ttl) = [ip0]).
Proof.
  split.
  - intros e He Hip Hage.
    destruct (find (fresh_for ip0 now ttl) (entries cache)) as [e0|] eqn:Hf.
    + exists e0. split; [reflexivity|].
      destruct (find_some _ _ Hf) as [Hin Hfr].
      apply fresh_for_true in Hfr as [Hi Ha].
      split; [exact Hin|]. split; [exact Hi|]. split; [exact Ha|].
      intros root'. now apply lookup_with_cache_hit.
    + pose proof (proj1 (find_none_iff _ _) Hf e He) as Hn.
      assert (Ht : fresh_for ip0 now ttl e = true)
        by (apply fresh_for_true; split; assumption).
      congruence.
  - intros Hall.
    assert (Hf : find (fresh_for ip0 now ttl) (entries cache) = None).
    { apply find_none_iff. intros e He.
      destruct (fresh_for ip0 now ttl e) eqn:E; [|reflexivity].
      apply fresh_for_true in E as [Hi Ha].
      specialize (Hall e He Hi). lia. }
    rewrite (lookup_with_cache_miss now root cache ip0 ttl Hf).
    split; reflexivity.
Qed.

Lemma cache_ttl_semantics_witness :
  let a := ipv4 10 0 0 9 in
  let e := mk_entry a (Some route_10_8) 5 in
  let cache := mk_cache [e] 4 in
  In e (entries cache) /\ ip e = a /\ 6 - timestamp e < 10 /\
  lookup_with_cache 6 empty_trie cache a 10
  = mk_result (Some route_10_8) cache [].
Proof.
  cbv zeta.
  assert (Hin : In (mk_entry (ipv4 10 0 0 9) (Some route_10_8) 5)
                   (entries (mk_cache
                      [mk_entry (ipv4 10 0 0 9) (Some route_10_8) 5] 4)))
    by (left; reflexivity).
  assert (Hage : 6 - timestamp (mk_entry (ipv4 10 0 0 9) (Some route_10_8) 5)
                 < 10) by (simpl; lia).
  split; [exact Hin|]. split; [reflexivity|]. split; [exact Hage|].
  destruct (proj1 (cache_ttl_semantics 6 empty_trie
                     (mk_cache [mk_entry (ipv4 10 0 0 9) (Some route_10_8) 5] 4)
                     (ipv4 10 0 0 9) 10) _ Hin eq_refl Hage)
    as (e0 & Hf & _ & _ & _ & Hres).
  vm_compute in Hf. injection Hf as <-. exact (Hres empty_trie).
Defined.

(** One call either leaves the cache as it is or appends one entry, the
    latter only below capacity and with the route the trie returned. *)
Lemma apply_call_cases (cache : route_cache) (k : cache_call) :
  cache_after (apply_call cache k) = cache
  \/ (size cache < capacity cache /\
      exists r, lookup_route_optimized (call_root k) (call_ip k) = Some r /\
                returned (apply_call cache k) = Some r /\
                cache_after (apply_call cache k)
                = mk_cache (entries cache ++
                              [mk_entry (call_ip k) (Some r) (call_now k)])
                           (capacity cache)).
Proof.
  unfold apply_call.
  destruct (find (fresh_for (call_ip k) (call_now k) (call_ttl k))
                 (entries cache)) as [e0|] eqn:Hf.
  - rewrite (lookup_with_cache_hit _ (call_root k) _ _ _ _ Hf). now left.
  - rewrite (lookup_with_cache_miss _ (call_root k) _ _ _ Hf). cbv zeta.
    destruct (lookup_route_optimized (call_root k) (call_ip k)) as [r|];
      [|now left].
    simpl. destruct (size cache <? capacity cache) eqn:E; [|now left].
    right. apply Z.ltb_lt in E. split; [exact E|].
    exists r. repeat split.
Qed.

Lemma size_app_one (es : list route_cache_entry) (e : route_cache_entry) c :
  size (mk_cache (es ++ [e]) c) = size (mk_cache es c) + 1.
Proof. unfold size. simpl. rewrite length_app. simpl. lia. Qed.

Lemma apply_call_bound (cache : route_cache) (k : cache_call) :
  size cache <= capacity cache ->
  size (cache_after (apply_call cache k))
  <= capacity (cache_after (apply_call cache k))
  /\ capacity (cache_after (apply_call cache k)) = capacity cache.
Proof.
  intros H. destruct (apply_call_cases cache k) as [-> | (Hlt & r & _ & _ & ->)].
  - split; [exact H | reflexivity].
  - destruct cache as [es c]. rewrite size_app_one. simpl in *.
    split; [lia | reflexivity].
Qed.

Lemma run_cache_bound (calls : list cache_call) : forall cache,
  size cache <= capacity cache ->
  size (run_cache calls cache) <= capacity cache
  /\ capacity (run_cache calls cache) = capacity cache.
Proof.
  induction calls as [|k calls IH]; intros cache H.
  - split; [exact H | reflexivity].
  - unfold run_cache. cbn [fold_left].
    destruct (apply_call_bound cache k H) as [Hs Hc].
    destruct (IH _ Hs) as [Hs' Hc']. unfold run_cache in *.
    rewrite Hc in *. split; assumption.
Qed.

(** C7 — Cache capacity bound: for a cache created with capacity [c >= 0],
    after every sequence of [lookup_with_cache] calls the number of stored
    entries is at most [c]; in that state, a further call leaves a cache
    that holds [c] entries exactly as it is (nothing appended, nothing
    evicted), and it appends an entry only below capacity and only with the
    route the trie lookup returned, never on a none result. *)
Theorem cache_capacity_bound (c : Z) (calls : list cache_call) :
  0 <= c ->
  let cache := run_cache calls (create_route_cache c) in
  size cache <= c /\ capacity cache = c
  /\ forall k,
       (size cache = c -> cache_after (apply_call cache k) = cache)
       /\ (cache_after (apply_call cache k) <> cache ->
           size cache < c /\
           exists r,
             lookup_route_optimized (call_root k) (call_ip k) = Some r /\
             cache_after (apply_call cache k)
             = mk_cache (entries cache ++
                           [mk_entry (call_ip k) (Some r) (call_now k)]) c)
       /\ (lookup_route_optimized (call_root k) (call_ip k) = None ->
           cache_after (apply_call cache k) = cache).
Proof.
  intros Hc cache.
  destruct (run_cache_bound calls (create_route_cache c)) as [Hs Hcap];
    [exact Hc|].
  fold cache in Hs, Hcap. simpl in Hs, Hcap.
  split; [exact Hs|]. split; [exact Hcap|].
  intros k.
  destruct (apply_call_cases cache k) as [E | (Hlt & r & Hr & _ & E)];
    try rewrite Hcap in *.
  - split; [intros _; exact E|]. split; [intros H; now elim H|].
    intros _. exact E.
  - split; [intros H; lia|]. split.
    + intros _. split; [exact Hlt|]. exists r. split; assumption.
    + intros H. congruence.
Qed.

Lemma cache_capacity_bound_witness :
  let a := ipv4 10 0 0 9 in
  let calls := [mk_call 0 example_trie a 0; mk_call 1 example_trie a 0;
                mk_call 2 example_trie a 0] in
  0 <= 2 /\ size (run_cache calls (create_route_cache 2)) <= 2.
Proof.
  cbv zeta. assert (H : 0 <= 2) by lia. split; [exact H|].
  exact (proj1 (cache_capacity_bound 2 _ H)).
Defined.

(** ** The cache only grows *)

Lemma run_cache_app_entries (calls : list cache_call) : forall cache,
  exists added,
    entries (run_cache calls cache) = entries cache ++ added.
Proof.
  induction calls as [|k calls IH]; intros cache.
  - exists []. simpl. now rewrite app_nil_r.
  - unfold run_cache. cbn [fold_left].
    destruct (IH (cache_after (apply_call cache k))) as [added Ha].
    unfold run_cache in Ha. rewrite Ha.
    destruct (apply_call_cases cache k) as [-> | (_ & r & _ & _ & ->)].
    + now exists added.
    + simpl. rewrite <- app_assoc. eexists. reflexivity.
Qed.

(** C10 — Cache entries are never removed or replaced: a call of
    [lookup_with_cache] keeps every entry where it is and appends at most
    one; over any sequence of calls the entries at the start remain a
    prefix of the array and the size does not decrease; when every entry
    for an address is expired, the trie returns a route and there is room,
    the expired entries stay and a new entry for the same address is
    appended after them, so one address can have several entries; and a
    cache at capacity is left unchanged by every call that misses, so its
    entries, expired or not, hold their cells for good. *)
Theorem cache_append_only :
  (forall cache k,
     exists added,
       entries (cache_after (apply_call cache k)) = entries cache ++ added /\
       (length added <= 1)%nat /\
       capacity (cache_after (apply_call cache k)) = capacity cache)
  /\ (forall calls cache,
        (exists added,
           entries (run_cache calls cache) = entries cache ++ added) /\
        size cache <= size (run_cache calls cache))
  /\ (forall now root cache ip0 ttl r e,
        In e (entries cache) -> ip e = ip0 ->
        (forall e', In e' (entries cache) -> ip e' = ip0 ->
                    ttl <= now - timestamp e') ->
        lookup_route_optimized root ip0 = Some r ->
        size cache < capacity cache ->
        entries (cache_after (lookup_with_cache now root cache ip0 ttl))
        = entries cache ++ [mk_entry ip0 (Some r) now])
  /\ (forall now root cache ip0 ttl,
        capacity cache <= size cache ->
        cache_after (lookup_with_cache now root cache ip0 ttl) = cache).
Proof.
  split; [|split; [|split]].
  - intros cache k.
    destruct (apply_call_cases cache k) as [-> | (_ & r & _ & _ & ->)].
    + exists []. rewrite app_nil_r. repeat split. simpl. lia.
    + eexists. simpl. repeat split. simpl. lia.
  - intros calls cache.
    destruct (run_cache_app_entries calls cache) as [added Ha].
    split; [now exists added|].
    unfold size. rewrite Ha, length_app. lia.
  - intros now root cache ip0 ttl r e He Hip Hall Hr Hroom.
    assert (Hf : find (fresh_for ip0 now ttl) (entries cache) = None).
    { apply find_none_iff. intros e' He'.
      destruct (fresh_for ip0 now ttl e') eqn:E; [|reflexivity].
      apply fresh_for_true in E as [Hi Ha].
      specialize (Hall e' He' Hi). lia. }
    rewrite (lookup_with_cache_miss now root cache ip0 ttl Hf). cbv zeta.
    rewrite Hr. simpl.
    apply Z.ltb_lt in Hroom. rewrite Hroom. reflexivity.
  - intros now root cache ip0 ttl Hfull.
    destruct (apply_call_cases cache (mk_call now root ip0 ttl))
      as [E | (Hlt & _)]; [exact E | lia].
Qed.

Lemma cache_append_only_witness :
  let a := ipv4 10 0 0 9 in
  let e := mk_entry a (Some route_10_8) 0 in
  let cache := mk_cache [e] 4 in
  In e (entries cache) /\
  entries (cache_after (lookup_with_cache 9 example_trie cache a 5))
  = [e; mk_entry a (Some route_10_8) 9].
Proof.
  cbv zeta. split; [left; reflexivity|].
  refine (proj1 (proj2 (proj2 cache_append_only))
            9 example_trie
            (mk_cache [mk_entry (ipv4 10 0 0 9) (Some route_10_8) 0] 4)
            (ipv4 10 0 0 9) 5 route_10_8
            (mk_entry (ipv4 10 0 0 9) (Some route_10_8) 0) _ _ _ _ _).
  - left; reflexivity.
  - reflexivity.
  - intros e' [<- | []] _. simpl. lia.
  - vm_compute. reflexivity.
  - vm_compute. reflexivity.
Defined.

(** ** Longest-prefix match *)

Lemma holds_routes_insert (heap : nat) (t : trie_node) (r : route_entry)
    (rs : list route_entry) :
  0 <= prefix_len r <= 32 ->
  snd (insert_route heap t r) = 0 ->
  holds_routes t rs ->
  holds_routes (fst (insert_route heap t r)) (rs ++ [r]).
Proof.
  intros Hlen Hrc [Ha Hb].
  destruct (insert_route_leaves heap t r Hlen) as [(_ & Hl & Ho) | (H & _)];
    [|congruence].
  split.
  - intros p d Hp.
    destruct (list_eq_dec bool_dec p (path_of (prefix r) (prefix_len r)))
      as [->|Hne].
    + rewrite Hl in Hp. injection Hp as <-. exists r.
      split; [reflexivity|]. split; [|reflexivity].
      apply in_or_app. right. now left.
    + rewrite Ho in Hp by exact Hne.
      destruct (Ha p d Hp) as (r' & E & Hin & Hpath).
      exists r'. split; [exact E|]. split; [|exact Hpath].
      apply in_or_app. now left.
  - intros r' Hin.
    destruct (list_eq_dec bool_dec (path_of (prefix r') (prefix_len r'))
                          (path_of (prefix r) (prefix_len r))) as [E|Hne].
    + rewrite E, Hl. discriminate.
    + rewrite Ho by exact Hne. apply in_app_or in Hin as [Hin | [<- | []]].
      * now apply Hb.
      * now elim Hne.
Qed.

Lemma holds_routes_inserts (ins : list (nat * route_entry)) :
  forall t rs,
  (forall hr, In hr ins -> 0 <= prefix_len (snd hr) <= 32) ->
  inserts_succeed (insert_ops ins) t ->
  holds_routes t rs ->
  holds_routes (run_ops (insert_ops ins) t) (rs ++ map snd ins).
Proof.
  induction ins as [|[h r] ins IH]; intros t rs Hr Hs Ht.
  - simpl. now rewrite app_nil_r.
  - destruct Hs as [Hs Hs']. unfold run_ops. cbn [insert_ops map fold_left].
    cbn [map snd]. change (rs ++ r :: map snd ins)
      with (rs ++ [r] ++ map snd ins). rewrite app_assoc.
    apply IH.
    + intros hr Hin. apply Hr. now right.
    + exact Hs'.
    + apply holds_routes_insert; [|exact Hs | exact Ht].
      apply (Hr (h, r)). now left.
Qed.

Lemma holds_routes_empty : holds_routes empty_trie [].
Proof.
  split.
  - intros p d H. unfold empty_trie in H. rewrite leaf_at_fresh in H.
    discriminate.
  - intros r [].
Qed.

(** Longest-prefix match for prefixes of positive length: after the records
    [ins] are inserted into the empty trie, each call returning 0 and each
    prefix length in [1,32], the lookup of [a] returns an inserted record
    whose prefix is a bit-prefix of [a] and no inserted record matching [a]
    is longer; it returns none exactly when no inserted prefix matches. *)
Lemma longest_prefix_match_positive_length
    (ins : list (nat * route_entry)) (a : Z) :
  (forall hr, In hr ins -> 1 <= prefix_len (snd hr) <= 32) ->
  inserts_succeed (insert_ops ins) empty_trie ->
  match lookup_route_optimized (run_ops (insert_ops ins) empty_trie) a with
  | Some r =>
      In r (map snd ins) /\
      is_bit_prefix (prefix r) (prefix_len r) a /\
      forall r', In r' (map snd ins) ->
                 is_bit_prefix (prefix r') (prefix_len r') a ->
                 prefix_len r' <= prefix_len r
  | None =>
      forall r', In r' (map snd ins) ->
                 ~ is_bit_prefix (prefix r') (prefix_len r') a
  end.
Proof.
  intros Hr Hs.
  destruct (holds_routes_inserts ins empty_trie [])
    as [Ha Hb]; [|exact Hs | exact holds_routes_empty |].
  { intros hr Hin. specialize (Hr hr Hin). lia. }
  simpl app in Ha, Hb.
  assert (Hlen : forall r, In r (map snd ins) -> 1 <= prefix_len r <= 32).
  { intros r Hin. apply in_map_iff in Hin as (hr & <- & Hin). now apply Hr. }
  set (t := run_ops (insert_ops ins) empty_trie) in *.
  destruct (lookup_char t a) as [(k & Hk & Hf & Hn) | (-> & Hn)].
  - destruct (Ha _ _ Hf) as (r & -> & Hin & Hpath).
    assert (Ek : prefix_len r = k).
    { apply (f_equal (@length bool)) in Hpath.
      rewrite !length_path_of in Hpath. specialize (Hlen r Hin). lia. }
    split; [exact Hin|]. split.
    + apply is_bit_prefix_path. rewrite Ek at 2. exact Hpath.
    + intros r' Hin' Hm. apply is_bit_prefix_path in Hm.
      destruct (Z_le_gt_dec (prefix_len r') (prefix_len r)) as [Hle|Hgt];
        [exact Hle|].
      elim (Hb r' Hin'). rewrite Hm. apply Hn.
      specialize (Hlen r' Hin'). lia.
  - intros r' Hin' Hm. apply is_bit_prefix_path in Hm.
    elim (Hb r' Hin'). rewrite Hm. apply Hn. now apply Hlen.
Qed.

(** C1 — Longest-prefix-match correctness fails on the default route: after
    [insert_route] of 0.0.0.0/0 into the empty trie (it returns 0), the
    prefix is a bit-prefix of every address, and [lookup_route_optimized]
    returns none for every address, 10.0.0.1 among them. *)
Theorem lookup_misses_default_route :
  snd (insert_route 0 empty_trie default_route) = 0
  /\ 0 <= prefix_len default_route <= 32
  /\ (forall a, is_bit_prefix (prefix default_route)
                              (prefix_len default_route) a)
  /\ (forall a, lookup_route_optimized
                  (fst (insert_route 0 empty_trie default_route)) a = None)
  /\ lookup_route_optimized
       (fst (insert_route 0 empty_trie default_route)) (ipv4 10 0 0 1) = None.
Proof.
  split; [reflexivity|]. split; [simpl; lia|]. split.
  - intros a i Hi. simpl in Hi. lia.
  - assert (H : forall a, lookup_route_optimized
                  (fst (insert_route 0 empty_trie default_route)) a = None).
    { intros a.
      change (fst (insert_route 0 empty_trie default_route))
        with (set_data_leaf empty_trie (Some default_route) true).
      rewrite lookup_ignores_root_record.
      unfold lookup_route_optimized. cbn [lookup_loop].
      destruct (Z.land (Z.shiftr a (31 - 0)) 1 =? 0) eqn:E;
        unfold children; rewrite E; reflexivity. }
    split; [exact H | apply H].
Qed.

(** ** The example of the specification *)

(** With 10.0.0.0/8 and 10.0.1.0/24 inserted, 10.0.1.5 resolves to the /24
    record, 10.2.3.4 to the /8 record and 192.168.1.1 to none. *)
Example spec_example_lookups :
  lookup_route_optimized example_trie (ipv4 10 0 1 5) = Some route_10_0_1_24
  /\ lookup_route_optimized example_trie (ipv4 10 2 3 4) = Some route_10_8
  /\ lookup_route_optimized example_trie (ipv4 192 168 1 1) = None.
Proof. vm_compute. repeat split. Qed.

(** The same three answers from the general statement, whose hypotheses the
    example meets. *)
Example spec_example_longest_match :
  let ins := [(32%nat, route_10_8); (32%nat, route_10_0_1_24)] in
  inserts_succeed (insert_ops ins) empty_trie /\
  forall r, lookup_route_optimized (run_ops (insert_ops ins) empty_trie)
                                   (ipv4 10 0 1 5) = Some r ->
            is_bit_prefix (prefix r) (prefix_len r) (ipv4 10 0 1 5) /\
            prefix_len route_10_0_1_24 <= prefix_len r.
Proof.
  cbv zeta.
  assert (Hs : inserts_succeed
                 (insert_ops [(32%nat, route_10_8); (32%nat, route_10_0_1_24)])
                 empty_trie) by (vm_compute; repeat split).
  split; [exact Hs|]. intros r Hr.
  assert (Hlen : forall hr,
             In hr [(32%nat, route_10_8); (32%nat, route_10_0_1_24)] ->
             1 <= prefix_len (snd hr) <= 32).
  { intros hr [<- | [<- | []]]; simpl; lia. }
  pose proof (longest_prefix_match_positive_length _ (ipv4 10 0 1 5) Hlen Hs)
    as H.
  rewrite Hr in H. destruct H as (_ & Hm & Hmax).
  split; [exact Hm|]. apply Hmax.
  - right. now left.
  - apply is_bit_prefixb_spec. vm_compute. reflexivity.
Qed.

(** Deleting the two routes again prunes every node: the trie is the empty
    one, whatever the order of the deletes. *)
Example spec_example_pruned_to_empty :
  run_ops [Delete (ipv4 10 0 0 0) 8; Delete (ipv4 10 0 1 0) 24] example_trie
  = empty_trie
  /\ run_ops [Delete (ipv4 10 0 1 0) 24; Delete (ipv4 10 0 0 0) 8] example_trie
     = empty_trie.
Proof. vm_compute. split; reflexivity. Qed.

(** * Further properties of the code *)

(** ** [ip_to_binary] *)

Lemma firstn_seq_le (k n : nat) : forall i,
  (k <= n)%nat -> firstn k (seq i n) = seq i k.
Proof.
  revert n. induction k as [|k IH]; intros n i H; [reflexivity|].
  destruct n as [|n]; [lia|]. cbn [seq firstn]. rewrite IH by lia.
  reflexivity.
Qed.

(** The cells [ip_to_binary] leaves: the digits, then the NUL. *)
Lemma ip_to_binary_cells (a len : Z) :
  0 <= len <= 32 ->
  ip_to_binary a len
  = map (fun i : nat =>
           if Z.land (Z.shiftr a (31 - Z.of_nat i)) 1 =? 0
           then char_0 else char_1)
        (seq 0 (Z.to_nat len))
    ++ 0 :: skipn (S (Z.to_nat len))
                  (map (fun i : nat =>
                          if Z.land (Z.shiftr a (31 - Z.of_nat i)) 1 =? 0
                          then char_0 else char_1)
                       (seq 0 32)).
Proof.
  intros H. unfold ip_to_binary, store. f_equal.
  rewrite firstn_map, firstn_seq_le by lia. reflexivity.
Qed.

Lemma c_strlen_digits (f : nat -> Z) (rest : list Z) (n : nat) : forall i,
  (forall j, f j <> 0) ->
  c_strlen (map f (seq i n) ++ 0 :: rest) = n.
Proof.
  induction n as [|n IH]; intros i Hf; simpl.
  - reflexivity.
  - destruct (f i =? 0) eqn:E; [apply Z.eqb_eq in E; now elim (Hf i)|].
    rewrite IH by exact Hf. reflexivity.
Qed.

(** X1 — For a prefix length in [0,32], [ip_to_binary] leaves in [binary] a
    C string that fits the 33 bytes: its length is [prefix_len], the NUL
    sits at index [prefix_len], and the character at index [i] is '1' when
    bit [31 - i] of the address is set and '0' when it is not. *)
Theorem ip_to_binary_string (a len : Z) :
  0 <= len <= 32 ->
  (length (ip_to_binary a len) <= 33)%nat
  /\ c_strlen (ip_to_binary a len) = Z.to_nat len
  /\ nth (Z.to_nat len) (ip_to_binary a len) 1 = 0
  /\ forall i, 0 <= i < len ->
       nth (Z.to_nat i) (ip_to_binary a len) 0
       = if Z.testbit a (31 - i) then char_1 else char_0.
Proof.
  intros H. split; [|split; [|split]].
  - rewrite (ip_to_binary_cells a len H).
    rewrite length_app, length_map, length_seq. cbn [length].
    rewrite length_skipn, length_map, length_seq. lia.
  - rewrite (ip_to_binary_cells a len H). apply c_strlen_digits.
    intros j. destruct (_ =? 0); discriminate.
  - rewrite (ip_to_binary_cells a len H).
    rewrite app_nth2; rewrite length_map, length_seq; [|lia].
    rewrite Nat.sub_diag. reflexivity.
  - intros i Hi. pose proof (binary_digit a len i H Hi) as E.
    destruct (Z.testbit a (31 - i)); unfold char_0, char_1 in *; simpl in E;
      lia.
Qed.

Lemma ip_to_binary_string_witness :
  0 <= 8 <= 32 /\ c_strlen (ip_to_binary (ipv4 10 0 0 0) 8) = 8%nat.
Proof.
  assert (H : 0 <= 8 <= 32) by lia. split; [exact H|].
  exact (proj1 (proj2 (ip_to_binary_string (ipv4 10 0 0 0) 8 H))).
Defined.

Lemma mod_pow2_succ (y : Z) (m : nat) :
  y mod 2 ^ Z.of_nat (S m)
  = Z.b2z (Z.testbit y (Z.of_nat m)) * 2 ^ Z.of_nat m + y mod 2 ^ Z.of_nat m.
Proof.
  rewrite Nat2Z.inj_succ, Z.pow_succ_r by lia.
  rewrite (Z.mul_comm 2), Z.rem_mul_r by lia.
  rewrite Z.testbit_spec' by lia. lia.
Qed.

Lemma binary_value_digits (a : Z) (rest : list Z) (n : nat) : forall i acc,
  (i + n <= 32)%nat ->
  binary_value
    (map (fun i : nat =>
            if Z.land (Z.shiftr a (31 - Z.of_nat i)) 1 =? 0
            then char_0 else char_1)
         (seq i n) ++ 0 :: rest) acc
  = acc * 2 ^ Z.of_nat n
    + Z.shiftr a (32 - Z.of_nat (i + n)) mod 2 ^ Z.of_nat n.
Proof.
  induction n as [|n IH]; intros i acc Hn.
  - cbn [seq map app binary_value]. rewrite Z.eqb_refl.
    change (2 ^ Z.of_nat 0) with 1. rewrite Z.mod_1_r. lia.
  - cbn [seq map app binary_value].
    set (y := Z.shiftr a (32 - Z.of_nat (i + S n))).
    assert (Hbit : Z.land (Z.shiftr a (31 - Z.of_nat i)) 1
                   = Z.b2z (Z.testbit y (Z.of_nat n))).
    { rewrite land_shiftr_1 by lia. unfold y.
      rewrite Z.shiftr_spec by lia. do 2 f_equal. lia. }
    rewrite Hbit. rewrite IH by lia.
    replace (32 - Z.of_nat (S i + n)) with (32 - Z.of_nat (i + S n)) by lia.
    fold y. rewrite (mod_pow2_succ y n).
    rewrite Nat2Z.inj_succ, Z.pow_succ_r by lia.
    destruct (Z.testbit y (Z.of_nat n)); cbn [Z.b2z Z.eqb];
      unfold char_0, char_1; simpl (_ =? 0); cbv iota; lia.
Qed.

(** X2 — Read as a binary numeral, the string [ip_to_binary] leaves for a
    32-bit address and a prefix length in [0,32] is the address shifted
    right by [32 - prefix_len]: the network bits of the prefix. *)
Theorem ip_to_binary_value (a len : Z) :
  0 <= len <= 32 -> 0 <= a < 2 ^ 32 ->
  binary_value (ip_to_binary a len) 0 = Z.shiftr a (32 - len).
Proof.
  intros Hlen Ha. rewrite (ip_to_binary_cells a len Hlen).
  rewrite binary_value_digits by lia.
  rewrite Nat.add_0_l, Z2Nat.id by lia. rewrite Z.mul_0_l, Z.add_0_l.
  apply Z.mod_small. rewrite Z.shiftr_div_pow2 by lia. split.
  - apply Z.div_pos; [lia | apply Z.pow_pos_nonneg; lia].
  - apply Z.div_lt_upper_bound; [apply Z.pow_pos_nonneg; lia|].
    rewrite <- Z.pow_add_r by lia.
    replace (32 - len + len) with 32 by lia. lia.
Qed.

Lemma ip_to_binary_value_witness :
  0 <= 8 <= 32 /\ 0 <= ipv4 10 0 0 0 < 2 ^ 32 /\
  binary_value (ip_to_binary (ipv4 10 0 0 0) 8) 0 = 10.
Proof.
  assert (H : 0 <= 8 <= 32) by lia.
  assert (Ha : 0 <= ipv4 10 0 0 0 < 2 ^ 32) 
    by (vm_compute; split; [discriminate | reflexivity]).
  split; [exact H|]. split; [exact Ha|].
  exact (ip_to_binary_value (ipv4 10 0 0 0) 8 H Ha).
Defined.

(** ** When [insert_route] succeeds *)

Lemma missing_nodes_fresh (bs : list bool) :
  missing_nodes bs fresh_node = length bs.
Proof. destruct bs as [|[|] bs]; reflexivity. Qed.

Lemma insert_path_rc (bs : list bool) (r : route_entry) : forall heap t,
  snd (insert_path bs r heap t) = 0 \/ snd (insert_path bs r heap t) = -1.
Proof.
  intros heap t. destruct (insert_path bs r heap t) as [t' rc] eqn:E.
  destruct (insert_path_leaves _ _ _ _ _ _ E) as [(-> & _) | (-> & _)];
    [now left | now right].
Qed.

Lemma insert_path_succeeds_iff (bs : list bool) (r : route_entry) :
  forall heap t,
  snd (insert_path bs r heap t) = 0 <-> (missing_nodes bs t <= heap)%nat.
Proof.
  induction bs as [|b bs IH]; intros heap t; cbn [insert_path missing_nodes].
  - split; [intros _; lia | reflexivity].
  - destruct (child t b) as [c|].
    + rewrite <- (IH heap c).
      destruct (insert_path bs r heap c); reflexivity.
    + destruct heap as [|heap]; cbn [snd length].
      * split; [discriminate | lia].
      * specialize (IH heap fresh_node).
        rewrite missing_nodes_fresh in IH.
        destruct (insert_path bs r heap fresh_node). cbn [snd] in *.
        rewrite IH. lia.
Qed.

(** X3 — [insert_route] returns 0 exactly when the heap can still give as
    many nodes as the path lacks, and -1 otherwise; in particular it needs
    no memory at all when every node of the path exists. *)
Theorem insert_route_succeeds_iff (heap : nat) (t : trie_node)
    (r : route_entry) :
  0 <= prefix_len r <= 32 ->
  let need := missing_nodes (path_of (prefix r) (prefix_len r)) t in
  (snd (insert_route heap t r) = 0 <-> (need <= heap)%nat)
  /\ (snd (insert_route heap t r) = -1 <-> (heap < need)%nat)
  /\ (need <= Z.to_nat (prefix_len r))%nat.
Proof.
  intros H need. subst need. rewrite (insert_route_path heap t r H).
  set (bs := path_of (prefix r) (prefix_len r)).
  pose proof (insert_path_succeeds_iff bs r heap t) as Hs.
  split; [exact Hs|]. split.
  - destruct (insert_path_rc bs r heap t) as [E | E]; rewrite E in *.
    + split; [discriminate|]. intros Hlt.
      pose proof (proj1 Hs eq_refl). lia.
    + split; [|reflexivity]. intros _.
      destruct (Nat.lt_ge_cases heap (missing_nodes bs t)) as [Hlt|Hge];
        [exact Hlt|].
      apply Hs in Hge. discriminate.
  - rewrite <- (length_path_of (prefix r) (prefix_len r)). fold bs.
    clearbody bs. clear. revert t.
    induction bs as [|b bs IH]; intros t; cbn [missing_nodes length];
      [lia|].
    destruct (child t b) as [c|]; [specialize (IH c)|]; lia.
Qed.

Lemma insert_route_succeeds_iff_witness :
  0 <= prefix_len route_10_0_1_24 <= 32 /\
  snd (insert_route 16 (run_inserts [route_10_8]) route_10_0_1_24) = 0.
Proof.
  assert (H : 0 <= prefix_len route_10_0_1_24 <= 32) by (simpl; lia).
  split; [exact H|].
  apply (proj1 (insert_route_succeeds_iff 16 (run_inserts [route_10_8])
                  route_10_0_1_24 H)).
  apply Nat.leb_le. vm_compute. reflexivity.
Defined.

Lemma insert_path_again (bs : list bool) (r r' : route_entry) :
  forall heap t t1,
  insert_path bs r heap t = (t1, 0) ->
  forall heap',
    insert_path bs r heap' t1 = (t1, 0) /\
    snd (insert_path bs r' heap' t1) = 0.
Proof.
  induction bs as [|b bs IH]; intros heap t t1 H heap'; simpl in H.
  - injection H as <-. split; reflexivity.
  - assert (Hgoal : forall h c1 c,
              insert_path bs r h c = (c1, 0) ->
              forall u, insert_path (b :: bs) r heap' (set_child u b (Some c1))
                        = (set_child u b (Some c1), 0) /\
                        snd (insert_path (b :: bs) r' heap'
                               (set_child u b (Some c1))) = 0).
    { intros h c1 c Hi u. cbn [insert_path]. rewrite child_set_child_same.
      destruct (IH _ _ _ Hi heap') as [E1 E2]. rewrite E1.
      split.
      - f_equal. destruct u, b; reflexivity.
      - destruct (insert_path bs r' heap' c1). exact E2. }
    clear IH. destruct (child t b) as [c|].
    + destruct (insert_path bs r heap c) as [c1 rc] eqn:Hi.
      injection H as <- ->. exact (Hgoal _ _ _ Hi t).
    + destruct heap as [|heap]; [discriminate|].
      destruct (insert_path bs r heap fresh_node) as [c1 rc] eqn:Hi.
      injection H as <- ->. exact (Hgoal _ _ _ Hi t).
Qed.

(** X4 — Once [insert_route] has returned 0 for a record, inserting the same
    record again returns 0 and leaves the trie exactly as it is, and
    inserting any record with the same prefix and length returns 0; neither
    needs memory (they succeed on an exhausted heap). *)
Theorem insert_route_again (heap heap' : nat) (t : trie_node)
    (r r' : route_entry) :
  0 <= prefix_len r <= 32 ->
  snd (insert_route heap t r) = 0 ->
  prefix r' = prefix r -> prefix_len r' = prefix_len r ->
  let t1 := fst (insert_route heap t r) in
  insert_route heap' t1 r = (t1, 0) /\ snd (insert_route heap' t1 r') = 0.
Proof.
  intros H Hrc Hp Hl t1. subst t1.
  assert (H' : 0 <= prefix_len r' <= 32) by lia.
  rewrite (insert_route_path heap' _ r' H').
  rewrite !(insert_route_path _ _ r H) in *. rewrite Hp, Hl.
  destruct (insert_path (path_of (prefix r) (prefix_len r)) r heap t)
    as [t1 rc] eqn:E.
  cbn [fst snd] in *. subst rc.
  exact (insert_path_again _ r r' _ _ _ E heap').
Qed.

Lemma insert_route_again_witness :
  let t1 := fst (insert_route 32 (run_inserts [route_10_0_1_24]) route_10_8) in
  0 <= prefix_len route_10_8 <= 32 /\
  insert_route 0 t1 route_10_8 = (t1, 0).
Proof.
  cbv zeta.
  assert (H : 0 <= prefix_len route_10_8 <= 32) by (simpl; lia).
  split; [exact H|].
  refine (proj1 (insert_route_again 32 0 (run_inserts [route_10_0_1_24])
                   route_10_8 route_10_8 H _ eq_refl eq_refl)).
  vm_compute. reflexivity.
Defined.

(** ** What an update leaves alone *)

Lemma deepest_ext_on f g (bs : list bool) : forall best,
  (forall k, (1 <= k <= length bs)%nat ->
             f (firstn k bs) = g (firstn k bs)) ->
  deepest f bs best = deepest g bs best.
Proof.
  revert f g. induction bs as [|b bs IH]; intros f g best H; cbn [deepest].
  - reflexivity.
  - assert (H1 : f [b] = g [b]) by (apply (H 1%nat); cbn [length]; lia).
    rewrite H1.
    apply IH. intros k Hk. apply (H (S k)). cbn [length]. lia.
Qed.

(** A lookup reads the trie only at the prefixes of its address. *)
Lemma lookup_same_on_path (t t' : trie_node) (a : Z) :
  (forall k, 1 <= k <= 32 ->
             leaf_at t' (path_of a k) = leaf_at t (path_of a k)) ->
  lookup_route_optimized t' a = lookup_route_optimized t a.
Proof.
  intros H. rewrite !lookup_route_path, !lookup_path_deepest.
  apply deepest_ext_on. intros k Hk. rewrite length_path_of in Hk.
  replace k with (Z.to_nat (Z.of_nat k)) by lia.
  rewrite firstn_path_of by lia. apply H. lia.
Qed.

Lemma path_of_prefix_eq (p len a k : Z) :
  0 <= len <= 32 -> 0 <= k <= 32 ->
  path_of a k = path_of p len -> is_bit_prefix p len a.
Proof.
  intros Hl Hk E. assert (k = len).
  { apply (f_equal (@length bool)) in E. rewrite !length_path_of in E. lia. }
  subst k. now apply is_bit_prefix_path.
Qed.

(** X5 — An [insert_route] or a [delete_route] of a prefix changes the
    lookup of no address outside that prefix, whatever it returns. *)
Theorem update_keeps_other_prefixes (heap : nat) (t : trie_node)
    (r : route_entry) (p len a : Z) :
  (0 <= prefix_len r <= 32 ->
   ~ is_bit_prefix (prefix r) (prefix_len r) a ->
   lookup_route_optimized (fst (insert_route heap t r)) a
   = lookup_route_optimized t a)
  /\ (0 <= len <= 32 ->
      ~ is_bit_prefix p len a ->
      lookup_route_optimized (fst (delete_route t p len)) a
      = lookup_route_optimized t a).
Proof.
  split.
  - intros H Hn. apply lookup_same_on_path. intros k Hk.
    assert (Hne : path_of a k <> path_of (prefix r) (prefix_len r)).
    { intros E. apply Hn. apply (path_of_prefix_eq _ _ _ k); [lia | lia | exact E]. }
    destruct (insert_route_leaves heap t r H) as [(_ & _ & Ho) | (_ & Ho)];
      [now apply Ho | apply Ho].
  - intros H Hn. apply lookup_same_on_path. intros k Hk.
    assert (Hne : path_of a k <> path_of p len).
    { intros E. apply Hn. apply (path_of_prefix_eq _ _ _ k); [lia | lia | exact E]. }
    destruct (delete_route_cases t p len H) as [H0 | [_ ->]]; [|reflexivity].
    destruct (delete_route_leaves t p len H H0) as (_ & _ & Ho).
    now apply Ho.
Qed.

Lemma update_keeps_other_prefixes_witness :
  0 <= 24 <= 32 /\
  lookup_route_optimized
    (fst (delete_route example_trie (ipv4 10 0 1 0) 24)) (ipv4 10 2 3 4)
  = lookup_route_optimized example_trie (ipv4 10 2 3 4).
Proof.
  assert (H : 0 <= 24 <= 32) by lia. split; [exact H|].
  apply (proj2 (update_keeps_other_prefixes 0 example_trie route_10_8
                  (ipv4 10 0 1 0) 24 (ipv4 10 2 3 4)) H).
  intros Hm. apply is_bit_prefixb_spec in Hm. vm_compute in Hm.
  discriminate Hm.
Defined.

(** X6 — An [insert_route], whatever it returns, changes the result of a
    lookup only to the record it inserts; a [delete_route] changes the
    result of a lookup only when that result was the record anchored at the
    deleted prefix. *)
Theorem update_changes_only_its_record (heap : nat) (t : trie_node)
    (r : route_entry) (p len a : Z) :
  (0 <= prefix_len r <= 32 ->
   lookup_route_optimized (fst (insert_route heap t r)) a
   = lookup_route_optimized t a
   \/ lookup_route_optimized (fst (insert_route heap t r)) a = Some r)
  /\ (0 <= len <= 32 ->
      lookup_route_optimized (fst (delete_route t p len)) a
      = lookup_route_optimized t a
      \/ leaf_at t (path_of p len) = Some (lookup_route_optimized t a)).
Proof.
  split.
  - intros H. set (t' := fst (insert_route heap t r)).
    destruct (insert_route_leaves heap t r H) as [(_ & Hb & Ho) | (_ & Ho)];
      [fold t' in Hb, Ho | fold t' in Ho].
    2:{ left. apply lookup_same_leaves. intros q _. apply Ho. }
    destruct (lookup_char t' a) as [(k & Hk & Hf & Hn) | (Hd & Hn)].
    + destruct (list_eq_dec bool_dec (path_of a k)
                            (path_of (prefix r) (prefix_len r))) as [E|Hne].
      * right. rewrite E, Hb in Hf. now injection Hf.
      * left. rewrite Ho in Hf by exact Hne.
        destruct (lookup_char t a) as [(k2 & Hk2 & Hf2 & Hn2) | (Hd2 & Hn2)].
        -- destruct (Z.lt_trichotomy k k2) as [Hlt | [-> | Hgt]].
           ++ destruct (list_eq_dec bool_dec (path_of a k2)
                          (path_of (prefix r) (prefix_len r))) as [E2|Hne2].
              ** rewrite <- E2, Hn in Hb by lia. discriminate.
              ** rewrite <- Ho, Hn in Hf2 by (exact Hne2 || lia).
                 discriminate.
           ++ congruence.
           ++ rewrite Hn2 in Hf by lia. discriminate.
        -- rewrite Hn2 in Hf by lia. discriminate.
    + left. apply lookup_same_on_path. intros k Hk.
      destruct (list_eq_dec bool_dec (path_of a k)
                            (path_of (prefix r) (prefix_len r))) as [E|Hne].
      * rewrite <- E, Hn in Hb by lia. discriminate.
      * now apply Ho.
  - intros H. set (t' := fst (delete_route t p len)).
    destruct (delete_route_cases t p len H) as [H0 | [_ E]];
      [|left; fold t' in E; now rewrite E].
    destruct (delete_route_leaves t p len H H0) as (_ & Hb & Ho);
      fold t' in Hb, Ho.
    destruct (lookup_char t a) as [(k & Hk & Hf & Hn) | (Hd & Hn)].
    + destruct (list_eq_dec bool_dec (path_of a k) (path_of p len))
        as [E|Hne]; [right; now rewrite <- E|].
      left. rewrite <- Ho in Hf by exact Hne.
      destruct (lookup_char t' a) as [(k2 & Hk2 & Hf2 & Hn2) | (Hd2 & Hn2)].
      * destruct (Z.lt_trichotomy k k2) as [Hlt | [-> | Hgt]].
        -- destruct (list_eq_dec bool_dec (path_of a k2) (path_of p len))
             as [E2|Hne2].
           ++ rewrite E2, Hb in Hf2. discriminate.
           ++ rewrite Ho, Hn in Hf2 by (exact Hne2 || lia). discriminate.
        -- congruence.
        -- rewrite Hn2 in Hf by lia. discriminate.
      * rewrite Hn2 in Hf by lia. discriminate.
    + left. apply lookup_same_on_path. intros k Hk.
      destruct (list_eq_dec bool_dec (path_of a k) (path_of p len))
        as [E|Hne].
      * rewrite E, Hb. rewrite <- E. symmetry. apply Hn. lia.
      * now apply Ho.
Qed.

Lemma update_changes_only_its_record_witness :
  0 <= prefix_len route_10_0_1_24 <= 32 /\
  (lookup_route_optimized
     (fst (insert_route 32 (run_inserts [route_10_8]) route_10_0_1_24))
     (ipv4 10 0 1 5)
   = lookup_route_optimized (run_inserts [route_10_8]) (ipv4 10 0 1 5)
   \/ lookup_route_optimized
        (fst (insert_route 32 (run_inserts [route_10_8]) route_10_0_1_24))
        (ipv4 10 0 1 5) = Some route_10_0_1_24).
Proof.
  assert (H : 0 <= prefix_len route_10_0_1_24 <= 32) by (simpl; lia).
  split; [exact H|].
  exact (proj1 (update_changes_only_its_record 32 (run_inserts [route_10_8])
                  route_10_0_1_24 0 0 (ipv4 10 0 1 5)) H).
Defined.

(** X7 — After a [delete_route] that returned 0, deleting the same prefix
    again returns -1 and leaves the trie as it is; and deleting a prefix
    right after an [insert_route] for it returned 0 always returns 0. *)
Theorem delete_route_twice (heap : nat) (t : trie_node) (r : route_entry)
    (p len : Z) :
  (0 <= len <= 32 ->
   snd (delete_route t p len) = 0 ->
   delete_route (fst (delete_route t p len)) p len
   = (fst (delete_route t p len), -1))
  /\ (0 <= prefix_len r <= 32 ->
      snd (insert_route heap t r) = 0 ->
      snd (delete_route (fst (insert_route heap t r))
                        (prefix r) (prefix_len r)) = 0).
Proof.
  split.
  - intros H H0.
    destruct (delete_route_leaves t p len H H0) as (_ & Hb & _).
    rewrite (delete_route_path (fst (delete_route t p len)) p len H).
    apply delete_path_none in Hb. rewrite Hb. reflexivity.
  - intros H H0.
    destruct (insert_route_leaves heap t r H) as [(_ & Hb & _) | (E & _)];
      [|congruence].
    rewrite (delete_route_path _ (prefix r) (prefix_len r) H).
    destruct (delete_path (path_of (prefix r) (prefix_len r))
                (fst (insert_route heap t r))) as [[u cl]|] eqn:E;
      [reflexivity|].
    apply delete_path_none in E. rewrite E in Hb. discriminate.
Qed.

Lemma delete_route_twice_witness :
  0 <= 24 <= 32 /\
  snd (delete_route (fst (delete_route example_trie (ipv4 10 0 1 0) 24))
                    (ipv4 10 0 1 0) 24) = -1.
Proof.
  assert (H : 0 <= 24 <= 32) by lia. split; [exact H|].
  rewrite (proj1 (delete_route_twice 0 example_trie route_10_8
                    (ipv4 10 0 1 0) 24) H).
  - reflexivity.
  - vm_compute. reflexivity.
Defined.

(** ** The trie as a table *)

Lemma table_set_same (tbl : table) p v : table_set tbl p v p = v.
Proof.
  unfold table_set. destruct (list_eq_dec bool_dec p p); [reflexivity|].
  now elim n.
Qed.

Lemma table_set_other (tbl : table) p v q :
  q <> p -> table_set tbl p v q = tbl q.
Proof.
  intros H. unfold table_set.
  destruct (list_eq_dec bool_dec q p); [now elim H | reflexivity].
Qed.

Lemma holds_table_step (t : trie_node) (tbl : table) (o : trie_op) :
  op_in_range o ->
  match o with Insert _ _ => snd (apply_op t o) = 0 | Delete _ _ => True end ->
  holds_table t tbl ->
  holds_table (fst (apply_op t o)) (table_step tbl o).
Proof.
  destruct o as [heap r | p len]; cbn [apply_op op_in_range table_step];
    intros Hr Hs Ht q.
  - destruct (insert_route_leaves heap t r Hr) as [(_ & Hb & Ho) | (E & _)];
      [|congruence].
    destruct (list_eq_dec bool_dec q (path_of (prefix r) (prefix_len r)))
      as [->|Hne].
    + rewrite Hb, table_set_same. reflexivity.
    + rewrite Ho, table_set_other by exact Hne. apply Ht.
  - destruct (list_eq_dec bool_dec q (path_of p len)) as [->|Hne].
    + rewrite table_set_same.
      destruct (delete_route_cases t p len Hr) as [H0 | [Hm E]].
      * apply (delete_route_leaves t p len Hr H0).
      * rewrite E. rewrite (delete_route_path t p len Hr) in Hm.
        destruct (delete_path (path_of p len) t) as [[u cl]|] eqn:Hd;
          [discriminate|].
        now apply delete_path_none.
    + rewrite table_set_other by exact Hne.
      destruct (delete_route_cases t p len Hr) as [H0 | [_ ->]]; [|apply Ht].
      destruct (delete_route_leaves t p len Hr H0) as (_ & _ & Ho).
      rewrite Ho by exact Hne. apply Ht.
Qed.

Lemma holds_table_run (ops : list trie_op) : forall t tbl,
  Forall op_in_range ops -> inserts_succeed ops t ->
  holds_table t tbl ->
  holds_table (run_ops ops t) (fold_left table_step ops tbl).
Proof.
  induction ops as [|o ops IH]; intros t tbl Hr Hs Ht; [exact Ht|].
  inversion Hr as [|? ? Ho Hr']; subst. destruct Hs as [Hs Hs'].
  unfold run_ops. cbn [fold_left]. apply IH; [exact Hr' | exact Hs'|].
  now apply holds_table_step.
Qed.

Lemma holds_table_empty : holds_table empty_trie table_empty.
Proof. intros p. unfold empty_trie. now rewrite leaf_at_fresh. Qed.

(** X8 — The trie stands for a table from prefixes to records: after any
    sequence of inserts and deletes on the empty trie (prefix lengths in
    [0,32], every insert returning 0), a record is anchored at a path
    exactly when the last successful operation on that prefix was the
    insert of that record; and a lookup returns the record the table binds
    to the longest prefix of the address of length 1 to 32 that is bound,
    or none when no such prefix is bound. *)
Theorem trie_holds_table (ops : list trie_op) :
  Forall op_in_range ops ->
  inserts_succeed ops empty_trie ->
  (forall p, leaf_at (run_ops ops empty_trie) p
             = option_map Some (table_of ops p))
  /\ forall a,
       match lookup_route_optimized (run_ops ops empty_trie) a with
       | Some r =>
           exists k, 1 <= k <= 32 /\
             table_of ops (path_of a k) = Some r /\
             forall j, k < j <= 32 -> table_of ops (path_of a j) = None
       | None =>
           forall j, 1 <= j <= 32 -> table_of ops (path_of a j) = None
       end.
Proof.
  intros Hr Hs.
  pose proof (holds_table_run ops empty_trie table_empty Hr Hs
                holds_table_empty) as Ht.
  fold (table_of ops) in Ht. split; [exact Ht|].
  intros a.
  assert (Hnone : forall q, leaf_at (run_ops ops empty_trie) q = None ->
                            table_of ops q = None).
  { intros q Hq. rewrite Ht in Hq. destruct (table_of ops q);
      [discriminate | reflexivity]. }
  pose proof (lookup_char (run_ops ops empty_trie) a) as Hc.
  revert Hc. generalize (lookup_route_optimized (run_ops ops empty_trie) a).
  intros res [(k & Hk & Hf & Hn) | (-> & Hn)].
  - rewrite Ht in Hf. destruct (table_of ops (path_of a k)) as [r|] eqn:E;
      cbn [option_map] in Hf; [|discriminate Hf].
    injection Hf as <-. exists k. split; [exact Hk|]. split; [exact E|].
    intros j Hj. apply Hnone, Hn, Hj.
  - intros j Hj. apply Hnone, Hn, Hj.
Qed.

Lemma trie_holds_table_witness :
  let ops := [Insert 32 route_10_8; Insert 32 route_10_0_1_24;
              Delete (ipv4 10 0 1 0) 24] in
  Forall op_in_range ops /\ inserts_succeed ops empty_trie /\
  leaf_at (run_ops ops empty_trie) (path_of (ipv4 10 0 1 0) 24)
  = option_map Some (table_of ops (path_of (ipv4 10 0 1 0) 24)).
Proof.
  cbv zeta.
  assert (Hr : Forall op_in_range
                 [Insert 32 route_10_8; Insert 32 route_10_0_1_24;
                  Delete (ipv4 10 0 1 0) 24])
    by (repeat constructor; simpl; lia).
  assert (Hs : inserts_succeed
                 [Insert 32 route_10_8; Insert 32 route_10_0_1_24;
                  Delete (ipv4 10 0 1 0) 24] empty_trie)
    by (vm_compute; repeat split).
  split; [exact Hr|]. split; [exact Hs|].
  exact (proj1 (trie_holds_table _ Hr Hs) _).
Defined.

(** ** The nodes of a trie after an update *)

Lemma find_node_fresh (p : list bool) (n : trie_node) :
  find_node p fresh_node = Some n -> p = [] /\ n = fresh_node.
Proof.
  destruct p as [|[|] p]; simpl; intros H; try discriminate.
  injection H as <-. split; reflexivity.
Qed.

Lemma find_node_set_child_other (t : trie_node) b b' x (p : list bool) :
  b <> b' -> find_node (b' :: p) (set_child t b x) = find_node (b' :: p) t.
Proof. intros H. simpl. rewrite child_set_child_other by exact H. reflexivity. Qed.

(** A node of the trie [insert_route] leaves is the node the record was
    anchored at, or a node that was there with the same [data] and
    [is_leaf], or a node the call created, blank and on the path. *)
Lemma insert_path_nodes (bs : list bool) (r : route_entry) :
  forall heap t t' rc p n',
  insert_path bs r heap t = (t', rc) ->
  find_node p t' = Some n' ->
  (p = bs /\ rc = 0 /\ is_leaf n' = true /\ data n' = Some r)
  \/ (exists n, find_node p t = Some n /\
                data n' = data n /\ is_leaf n' = is_leaf n)
  \/ (is_leaf n' = false /\ data n' = None /\
      (length p <= length bs)%nat).
Proof.
  induction bs as [|b bs IH]; intros heap t t' rc p n' H Hn; simpl in H.
  - injection H as <- <-. destruct p as [|b p].
    + injection Hn as <-. left. repeat split.
    + right. left. exists n'. split; [|split; reflexivity].
      simpl in *. rewrite child_set_data_leaf in Hn. exact Hn.
  - assert (Hroot : forall x, find_node [] (set_child t b x) = Some n' ->
              exists n, find_node [] t = Some n /\
                        data n' = data n /\ is_leaf n' = is_leaf n).
    { intros x Hx. injection Hx as <-. exists t. split; [reflexivity|].
      split; [apply data_set_child | apply is_leaf_set_child]. }
    destruct (child t b) as [c|] eqn:Hc.
    + destruct (insert_path bs r heap c) as [c' rc'] eqn:Hi.
      injection H as <- <-. destruct p as [|b' p].
      * right. left. exact (Hroot _ Hn).
      * destruct (bool_dec b b') as [<-|Hne].
        -- rewrite find_node_set_child in Hn.
           destruct (IH _ _ _ _ _ _ Hi Hn)
             as [(-> & -> & Hl & Hd) | [(n & Hf & Hd & Hl) | (Hl & Hd & Hlen)]].
           ++ left. repeat split; assumption.
           ++ right. left. exists n. split; [|split; assumption].
              simpl. rewrite Hc. exact Hf.
           ++ right. right. split; [exact Hl|]. split; [exact Hd|].
              simpl. lia.
        -- rewrite find_node_set_child_other in Hn by exact Hne.
           right. left. exists n'. split; [exact Hn | split; reflexivity].
    + destruct heap as [|heap].
      * injection H as <- <-. right. left. exists n'.
        split; [exact Hn | split; reflexivity].
      * destruct (insert_path bs r heap fresh_node) as [c' rc'] eqn:Hi.
        injection H as <- <-. destruct p as [|b' p].
        -- right. left. exact (Hroot _ Hn).
        -- destruct (bool_dec b b') as [<-|Hne].
           ++ rewrite find_node_set_child in Hn.
              destruct (IH _ _ _ _ _ _ Hi Hn)
                as [(-> & -> & Hl & Hd) | [(n & Hf & Hd & Hl) | (Hl & Hd & Hlen)]].
              ** left. repeat split; assumption.
              ** apply find_node_fresh in Hf as [-> ->].
                 right. right. split; [exact Hl|]. split; [exact Hd|].
                 simpl. lia.
              ** right. right. split; [exact Hl|]. split; [exact Hd|].
                 simpl. lia.
           ++ rewrite find_node_set_child_other in Hn by exact Hne.
              right. left. exists n'. split; [exact Hn | split; reflexivity].
Qed.

(** A node of the trie [delete_route] leaves was there before, with the
    same [data] and [is_leaf] unless it is the node of the deleted prefix,
    which is cleared. *)
Lemma delete_path_nodes (bs : list bool) : forall t t' cleaning p n',
  delete_path bs t = Some (t', cleaning) ->
  find_node p t' = Some n' ->
  exists n, find_node p t = Some n /\
    ((p = bs /\ is_leaf n' = false /\ data n' = None)
     \/ (data n' = data n /\ is_leaf n' = is_leaf n)).
Proof.
  induction bs as [|b bs IH]; intros t t' cl p n' H Hn; simpl in H.
  - destruct (is_leaf t); [|discriminate]. injection H as <- <-.
    destruct p as [|b p].
    + injection Hn as <-. exists t. split; [reflexivity|]. left.
      repeat split.
    + exists n'. simpl in *. rewrite child_set_data_leaf in Hn.
      split; [exact Hn|]. right. split; reflexivity.
  - destruct (child t b) as [c|] eqn:Hc; [|discriminate].
    destruct (delete_path bs c) as [[c' cl']|] eqn:Hd; [|discriminate].
    assert (Hroot : forall x, find_node [] (set_child t b x) = Some n' ->
              exists n, find_node [] t = Some n /\
                (([] = b :: bs /\ is_leaf n' = false /\ data n' = None)
                 \/ (data n' = data n /\ is_leaf n' = is_leaf n))).
    { intros x Hx. injection Hx as <-. exists t. split; [reflexivity|].
      right. split; [apply data_set_child | apply is_leaf_set_child]. }
    assert (Hoth : forall x b' q, b <> b' ->
              find_node (b' :: q) (set_child t b x) = Some n' ->
              exists n, find_node (b' :: q) t = Some n /\
                ((b' :: q = b :: bs /\ is_leaf n' = false /\ data n' = None)
                 \/ (data n' = data n /\ is_leaf n' = is_leaf n))).
    { intros x b' q Hne Hx.
      rewrite find_node_set_child_other in Hx by exact Hne.
      exists n'. split; [exact Hx|]. right. split; reflexivity. }
    destruct (cl' && unnecessary c'); injection H as <- <-;
      destruct p as [|b' p]; try exact (Hroot _ Hn);
      (destruct (bool_dec b b') as [<-|Hne]; [|exact (Hoth _ _ _ Hne Hn)]);
      rewrite find_node_set_child in Hn; [discriminate|].
    destruct (IH _ _ _ _ _ Hd Hn) as (n & Hf & Hcase).
    exists n. split; [simpl; rewrite Hc; exact Hf|].
    destruct Hcase as [(-> & Hl & Hdat) | Hsame];
      [left; repeat split; assumption | right; exact Hsame].
Qed.

Lemma nonleaf_no_data_fresh : nonleaf_no_data fresh_node.
Proof. intros p n H _. apply find_node_fresh in H as [_ ->]. reflexivity. Qed.

Lemma height_le_fresh : height_le 32 fresh_node.
Proof. intros p n H. apply find_node_fresh in H as [-> _]. simpl. lia. Qed.

Lemma apply_op_nonleaf_no_data (t : trie_node) (o : trie_op) :
  op_in_range o -> nonleaf_no_data t ->
  nonleaf_no_data (fst (apply_op t o)).
Proof.
  destruct o as [heap r | p len]; cbn [apply_op op_in_range];
    intros Hr Ht q n' Hn Hl.
  - rewrite (insert_route_path heap t r Hr) in Hn.
    destruct (insert_path (path_of (prefix r) (prefix_len r)) r heap t)
      as [t' rc] eqn:E. cbn [fst] in Hn.
    destruct (insert_path_nodes _ _ _ _ _ _ _ _ E Hn)
      as [(_ & _ & Hl' & _) | [(n & Hf & Hd & Hl') | (_ & Hd & _)]].
    + congruence.
    + rewrite Hd. apply (Ht q n Hf). congruence.
    + exact Hd.
  - rewrite (delete_route_path t p len Hr) in Hn.
    destruct (delete_path (path_of p len) t) as [[t' cl]|] eqn:E;
      cbn [fst] in Hn; [|exact (Ht q n' Hn Hl)].
    destruct (delete_path_nodes _ _ _ _ _ _ E Hn)
      as (n & Hf & [(_ & _ & Hd) | (Hd & Hl')]); [exact Hd|].
    rewrite Hd. apply (Ht q n Hf). congruence.
Qed.

Lemma apply_op_height_le (t : trie_node) (o : trie_op) :
  op_in_range o -> height_le 32 t -> height_le 32 (fst (apply_op t o)).
Proof.
  destruct o as [heap r | p len]; cbn [apply_op op_in_range];
    intros Hr Ht q n' Hn.
  - rewrite (insert_route_path heap t r Hr) in Hn.
    destruct (insert_path (path_of (prefix r) (prefix_len r)) r heap t)
      as [t' rc] eqn:E. cbn [fst] in Hn.
    destruct (insert_path_nodes _ _ _ _ _ _ _ _ E Hn)
      as [(-> & _) | [(n & Hf & _) | (_ & _ & Hlen)]].
    + rewrite length_path_of. lia.
    + exact (Ht q n Hf).
    + rewrite length_path_of in Hlen. lia.
  - rewrite (delete_route_path t p len Hr) in Hn.
    destruct (delete_path (path_of p len) t) as [[t' cl]|] eqn:E;
      cbn [fst] in Hn; [|exact (Ht q n' Hn)].
    destruct (delete_path_nodes _ _ _ _ _ _ E Hn) as (n & Hf & _).
    exact (Ht q n Hf).
Qed.

Lemma run_ops_inv (P : trie_node -> Prop) (ops : list trie_op) :
  (forall t o, op_in_range o -> P t -> P (fst (apply_op t o))) ->
  forall t, Forall op_in_range ops -> P t -> P (run_ops ops t).
Proof.
  intros Hstep. induction ops as [|o ops IH]; intros t Hr Ht; [exact Ht|].
  inversion Hr as [|? ? Ho Hr']; subst.
  unfold run_ops. cbn [fold_left]. apply IH; [exact Hr'|].
  now apply Hstep.
Qed.

(** ** Insert then delete gives the trie back *)

Lemma set_child_twice (t : trie_node) b x y :
  set_child (set_child t b x) b y = set_child t b y.
Proof. destruct t, b; reflexivity. Qed.

Lemma set_child_none (t : trie_node) b :
  child t b = None -> set_child t b None = t.
Proof. intros H. rewrite <- H. apply set_child_same. Qed.

Lemma nonleaf_no_data_child (t c : trie_node) b :
  nonleaf_no_data t -> child t b = Some c -> nonleaf_no_data c.
Proof.
  intros H Hc p n Hn. apply (H (b :: p)). simpl. rewrite Hc. exact Hn.
Qed.

Lemma delete_inserted_fresh (bs : list bool) (r : route_entry) :
  forall heap c,
  insert_path bs r heap fresh_node = (c, 0) ->
  delete_path bs c = Some (fresh_node, true).
Proof.
  induction bs as [|b bs IH]; intros heap c H; simpl in H.
  - injection H as <-. reflexivity.
  - replace (child fresh_node b) with (@None trie_node) in H
      by (destruct b; reflexivity).
    destruct heap as [|heap]; [discriminate|].
    destruct (insert_path bs r heap fresh_node) as [c' rc] eqn:Hi.
    injection H as <- ->. cbn [delete_path].
    rewrite child_set_child_same, (IH _ _ Hi). cbn [andb].
    change (unnecessary fresh_node) with true. cbv iota.
    rewrite set_child_twice. destruct b; reflexivity.
Qed.

Lemma delete_inserted (bs : list bool) (r : route_entry) :
  forall heap t t1,
  pruned_below t -> nonleaf_no_data t -> leaf_at t bs = None ->
  insert_path bs r heap t = (t1, 0) ->
  exists cleaning, delete_path bs t1 = Some (t, cleaning).
Proof.
  induction bs as [|b bs IH]; intros heap t t1 Hp Hd Hl H; simpl in H.
  - injection H as <-. exists true. cbn [delete_path].
    rewrite leaf_at_nil in Hl.
    assert (El : is_leaf t = false) by (destruct (is_leaf t); congruence).
    pose proof (Hd [] t eq_refl El) as Ed.
    destruct t. simpl in *. subst. reflexivity.
  - rewrite leaf_at_cons in Hl. destruct (child t b) as [c|] eqn:Hc.
    + destruct (insert_path bs r heap c) as [c1 rc] eqn:Hi.
      injection H as <- ->.
      pose proof (proj1 (pruned_below_child t) Hp b c Hc) as Hpc.
      apply pruned_split in Hpc as [Hu Hpc].
      destruct (IH heap c c1 Hpc (nonleaf_no_data_child t c b Hd Hc) Hl Hi)
        as [cl E].
      exists false. cbn [delete_path].
      rewrite child_set_child_same, E, Hu, andb_false_r.
      rewrite set_child_twice, <- Hc, set_child_same. reflexivity.
    + destruct heap as [|heap]; [discriminate|].
      destruct (insert_path bs r heap fresh_node) as [c1 rc] eqn:Hi.
      injection H as <- ->. exists true. cbn [delete_path].
      rewrite child_set_child_same, (delete_inserted_fresh _ _ _ _ Hi).
      cbn [andb]. change (unnecessary fresh_node) with true. cbv iota.
      rewrite set_child_twice, (set_child_none t b Hc). reflexivity.
Qed.

(** X9 — On a trie built from the empty one by inserts that all returned 0
    and deletes, inserting a record whose prefix is not anchored and then
    deleting that prefix gives back the very same trie, node for node: the
    clean-up loop frees exactly the nodes the insert created, so the trie
    does not grow with the history of updates. *)
Theorem insert_delete_restores_trie (ops : list trie_op) (heap : nat)
    (r : route_entry) :
  Forall op_in_range ops ->
  inserts_succeed ops empty_trie ->
  0 <= prefix_len r <= 32 ->
  let t := run_ops ops empty_trie in
  leaf_at t (path_of (prefix r) (prefix_len r)) = None ->
  snd (insert_route heap t r) = 0 ->
  delete_route (fst (insert_route heap t r)) (prefix r) (prefix_len r)
  = (t, 0).
Proof.
  intros Hr Hs Hlen t Hfree Hrc.
  assert (Hp : pruned_below t)
    by (apply run_ops_pruned; [exact Hr | exact Hs | apply pruned_below_fresh]).
  assert (Hd : nonleaf_no_data t)
    by (apply run_ops_inv;
        [apply apply_op_nonleaf_no_data | exact Hr
        | apply nonleaf_no_data_fresh]).
  rewrite (delete_route_path _ (prefix r) (prefix_len r) Hlen).
  revert Hrc. rewrite (insert_route_path heap t r Hlen).
  destruct (insert_path (path_of (prefix r) (prefix_len r)) r heap t)
    as [t1 rc] eqn:E.
  cbn [fst snd]. intros ->.
  destruct (delete_inserted _ _ _ _ _ Hp Hd Hfree E) as [cl ->].
  reflexivity.
Qed.

Lemma insert_delete_restores_trie_witness :
  let ops := [Insert 32 route_10_8] in
  Forall op_in_range ops /\ inserts_succeed ops empty_trie /\
  0 <= prefix_len route_10_0_1_24 <= 32 /\
  delete_route (fst (insert_route 32 (run_ops ops empty_trie) route_10_0_1_24))
               (prefix route_10_0_1_24) (prefix_len route_10_0_1_24)
  = (run_ops ops empty_trie, 0).
Proof.
  cbv zeta.
  assert (Hr : Forall op_in_range [Insert 32 route_10_8])
    by (repeat constructor; simpl; lia).
  assert (Hs : inserts_succeed [Insert 32 route_10_8] empty_trie)
    by (vm_compute; repeat split).
  assert (Hlen : 0 <= prefix_len route_10_0_1_24 <= 32) by (simpl; lia).
  split; [exact Hr|]. split; [exact Hs|]. split; [exact Hlen|].
  apply (insert_delete_restores_trie [Insert 32 route_10_8] 32
           route_10_0_1_24 Hr Hs Hlen).
  - vm_compute. reflexivity.
  - vm_compute. reflexivity.
Defined.

(** ** [bulk_insert_routes] *)

Lemma bulk_insert_loop_list (heap_at : Z -> nat) (rs : list route_entry) :
  forall i root pre post,
  0 <= i -> length pre = Z.to_nat i ->
  bulk_insert_loop (length rs) i heap_at root (pre ++ rs ++ post)
  = Some (bulk_insert_list heap_at i rs root).
Proof.
  induction rs as [|r rs IH]; intros i root pre post Hi Hpre;
    cbn [length bulk_insert_loop bulk_insert_list].
  - reflexivity.
  - rewrite nth_error_app2 by lia. rewrite Hpre, Nat.sub_diag.
    cbn [app nth_error].
    destruct (insert_route (heap_at i) root r) as [root' rc].
    destruct (negb (rc =? 0)); [reflexivity|].
    change (pre ++ r :: rs ++ post) with (pre ++ [r] ++ rs ++ post).
    rewrite app_assoc. apply IH; [lia|].
    rewrite length_app. cbn [length]. lia.
Qed.

Lemma bulk_insert_routes_list (heap_at : Z -> nat) (root : trie_node)
    (routes : list route_entry) (count : Z) :
  0 <= count <= Z.of_nat (length routes) ->
  bulk_insert_routes heap_at root routes count
  = Some (bulk_insert_list heap_at 0
            (firstn (Z.to_nat count) routes) root).
Proof.
  intros H. unfold bulk_insert_routes.
  rewrite <- (firstn_skipn (Z.to_nat count) routes) at 1.
  replace (Z.to_nat count) with (length (firstn (Z.to_nat count) routes)) at 1
    by (rewrite length_firstn; lia).
  apply (bulk_insert_loop_list heap_at _ 0 root [] _); [lia | reflexivity].
Qed.

Lemma insert_route_rc (heap : nat) (t : trie_node) (r : route_entry) :
  0 <= prefix_len r <= 32 ->
  snd (insert_route heap t r) = 0 \/ snd (insert_route heap t r) = -1.
Proof.
  intros H. rewrite (insert_route_path heap t r H). apply insert_path_rc.
Qed.

(** The list form of the loop: either every insert returned 0 and the trie
    is the one the inserts build, or the loop stopped at the first insert
    that did not. *)
Lemma bulk_insert_list_spec (heap_at : Z -> nat) (rs : list route_entry) :
  forall i root,
  let ops := insert_ops (with_heaps heap_at i rs) in
  (inserts_succeed ops root /\
   bulk_insert_list heap_at i rs root = (run_ops ops root, 0))
  \/ (~ inserts_succeed ops root /\
      exists (k : nat) rk,
        nth_error rs k = Some rk /\
        let before := insert_ops (with_heaps heap_at i (firstn k rs)) in
        inserts_succeed before root /\
        snd (insert_route (heap_at (i + Z.of_nat k))
                          (run_ops before root) rk) <> 0 /\
        bulk_insert_list heap_at i rs root
        = (fst (insert_route (heap_at (i + Z.of_nat k))
                             (run_ops before root) rk), -1)).
Proof.
  induction rs as [|r rs IH]; intros i root; cbv zeta.
  - left. split; [exact I | reflexivity].
  - cbn [with_heaps insert_ops map fst snd bulk_insert_list inserts_succeed
         apply_op].
    destruct (insert_route (heap_at i) root r) as [root' rc] eqn:E.
    cbn [fst snd]. destruct (rc =? 0) eqn:Erc; cbn [negb].
    + apply Z.eqb_eq in Erc. subst rc.
      destruct (IH (i + 1) root')
        as [[Hs Hb] | (Hn & k & rk & Hk & Hs & Hf & Hb)].
      * left. split; [split; [reflexivity | exact Hs]|].
        rewrite Hb. unfold run_ops. cbn [fold_left apply_op].
        rewrite E. reflexivity.
      * right. split; [intros [_ Hs']; now apply Hn|].
        exists (S k), rk. split; [exact Hk|].
        cbn [firstn with_heaps insert_ops map fst snd inserts_succeed
             apply_op]. rewrite E. cbn [fst snd].
        unfold run_ops in *. cbn [fold_left apply_op]. rewrite E.
        cbn [fst].
        replace (i + Z.of_nat (S k)) with (i + 1 + Z.of_nat k) by lia.
        split; [split; [reflexivity | exact Hs]|].
        split; [exact Hf | exact Hb].
    + apply Z.eqb_neq in Erc. right.
      split; [intros [H0 _]; now apply Erc|].
      exists 0%nat, r. split; [reflexivity|].
      cbn [firstn with_heaps insert_ops map inserts_succeed].
      unfold run_ops. cbn [fold_left]. rewrite Z.add_0_r, E. cbn [fst snd].
      split; [exact I|]. split; [exact Erc | reflexivity].
Qed.

(** X10 — [bulk_insert_routes] over the first [count] records of [routes]
    returns 0 exactly when every [insert_route] returns 0, and the trie is
    then the one the inserts build in order.  Otherwise it returns -1 at
    the first insert that fails and stops there: the records before it stay
    inserted, the failing call's partial nodes stay, and the records after
    it are not looked at. *)
Theorem bulk_insert_routes_spec (heap_at : Z -> nat) (root : trie_node)
    (routes : list route_entry) (count : Z) :
  0 <= count <= Z.of_nat (length routes) ->
  let rs := firstn (Z.to_nat count) routes in
  let ops := insert_ops (with_heaps heap_at 0 rs) in
  (inserts_succeed ops root /\
   bulk_insert_routes heap_at root routes count
   = Some (run_ops ops root, 0))
  \/ (~ inserts_succeed ops root /\
      exists (k : nat) rk,
        nth_error rs k = Some rk /\
        let before := insert_ops (with_heaps heap_at 0 (firstn k rs)) in
        inserts_succeed before root /\
        snd (insert_route (heap_at (Z.of_nat k))
                          (run_ops before root) rk) <> 0 /\
        bulk_insert_routes heap_at root routes count
        = Some (fst (insert_route (heap_at (Z.of_nat k))
                                  (run_ops before root) rk), -1)).
Proof.
  intros H rs ops. rewrite (bulk_insert_routes_list heap_at root routes count H).
  fold rs.
  destruct (bulk_insert_list_spec heap_at rs 0 root)
    as [[Hs Hb] | (Hn & k & rk & Hk & Hs & Hf & Hb)].
  - left. split; [exact Hs|]. now rewrite Hb.
  - right. split; [exact Hn|]. exists k, rk. split; [exact Hk|].
    cbv zeta. rewrite Z.add_0_l in *. split; [exact Hs|].
    split; [exact Hf|]. now rewrite Hb.
Qed.

Lemma bulk_insert_routes_spec_witness :
  0 <= 2 <= Z.of_nat (length [route_10_8; route_10_0_1_24]) /\
  bulk_insert_routes (fun _ => 32%nat) empty_trie
                     [route_10_8; route_10_0_1_24] 2
  = Some (example_trie, 0).
Proof.
  assert (H : 0 <= 2 <= Z.of_nat (length [route_10_8; route_10_0_1_24]))
    by (simpl; lia).
  split; [exact H|].
  destruct (bulk_insert_routes_spec (fun _ => 32%nat) empty_trie
              [route_10_8; route_10_0_1_24] 2 H)
    as [[_ E] | (Hn & _)].
  - rewrite E. vm_compute. reflexivity.
  - exfalso. apply Hn. vm_compute. repeat split.
Defined.

Lemma map_snd_with_heaps (heap_at : Z -> nat) (rs : list route_entry) :
  forall i, map snd (with_heaps heap_at i rs) = rs.
Proof.
  induction rs as [|r rs IH]; intros i; cbn [with_heaps map snd];
    [|rewrite IH]; reflexivity.
Qed.

Lemma inserts_succeed_enough_heap (heap_at : Z -> nat)
    (rs : list route_entry) : forall i root,
  (forall j, (32 <= heap_at j)%nat) ->
  (forall r, In r rs -> 0 <= prefix_len r <= 32) ->
  inserts_succeed (insert_ops (with_heaps heap_at i rs)) root.
Proof.
  induction rs as [|r rs IH]; intros i root Hh Hr;
    cbn [with_heaps insert_ops map inserts_succeed fst snd apply_op].
  - exact I.
  - split.
    + apply insert_route_enough_heap; [apply Hr; now left|].
      specialize (Hh i). specialize (Hr r (or_introl eq_refl)). lia.
    + apply IH; [exact Hh|]. intros r' Hin. apply Hr. now right.
Qed.

(** X11 — With memory for every call (at least 32 nodes each) and prefix
    lengths in [1,32], [bulk_insert_routes] on the empty trie returns 0, and
    every lookup on the trie it leaves returns one of the first [count]
    records whose prefix is a bit-prefix of the address and of maximal
    length among them, or none when none of them matches. *)
Theorem bulk_insert_then_lookup (heap_at : Z -> nat)
    (routes : list route_entry) (count : Z) :
  0 <= count <= Z.of_nat (length routes) ->
  (forall j, (32 <= heap_at j)%nat) ->
  let rs := firstn (Z.to_nat count) routes in
  (forall r, In r rs -> 1 <= prefix_len r <= 32) ->
  exists t',
    bulk_insert_routes heap_at empty_trie routes count = Some (t', 0) /\
    forall a,
      match lookup_route_optimized t' a with
      | Some r =>
          In r rs /\ is_bit_prefix (prefix r) (prefix_len r) a /\
          forall r', In r' rs ->
                     is_bit_prefix (prefix r') (prefix_len r') a ->
                     prefix_len r' <= prefix_len r
      | None =>
          forall r', In r' rs ->
                     ~ is_bit_prefix (prefix r') (prefix_len r') a
      end.
Proof.
  intros H Hh rs Hr.
  assert (Hs : inserts_succeed (insert_ops (with_heaps heap_at 0 rs))
                               empty_trie).
  { apply inserts_succeed_enough_heap; [exact Hh|].
    intros r Hin. specialize (Hr r Hin). lia. }
  exists (run_ops (insert_ops (with_heaps heap_at 0 rs)) empty_trie). split.
  - destruct (bulk_insert_list_spec heap_at rs 0 empty_trie)
      as [[_ Hb] | (Hn & _)]; [|now elim Hn].
    rewrite (bulk_insert_routes_list heap_at empty_trie routes count H).
    fold rs. now rewrite Hb.
  - intros a.
    pose proof (longest_prefix_match_positive_length
                  (with_heaps heap_at 0 rs) a) as L.
    rewrite map_snd_with_heaps in L. apply L; [|exact Hs].
    intros hr Hin. apply Hr.
    rewrite <- (map_snd_with_heaps heap_at rs 0). now apply in_map.
Qed.

Lemma bulk_insert_then_lookup_witness :
  0 <= 2 <= Z.of_nat (length [route_10_8; route_10_0_1_24]) /\
  exists t',
    bulk_insert_routes (fun _ => 32%nat) empty_trie
                       [route_10_8; route_10_0_1_24] 2 = Some (t', 0).
Proof.
  assert (H : 0 <= 2 <= Z.of_nat (length [route_10_8; route_10_0_1_24]))
    by (simpl; lia).
  split; [exact H|].
  destruct (bulk_insert_then_lookup (fun _ => 32%nat)
              [route_10_8; route_10_0_1_24] 2 H) as (t' & E & _).
  - intros j. lia.
  - intros r [<- | [<- | []]]; simpl; lia.
  - exists t'. exact E.
Defined.

(** ** [free_trie_node] *)

(** Induction on a trie: a property of a node follows from the property of
    its children. *)
Lemma trie_node_child_ind (P : trie_node -> Prop) :
  (forall t, (forall b c, child t b = Some c -> P c) -> P t) ->
  forall t, P t.
Proof.
  intros H. fix IH 1. intros [c0 c1 pf pl d l]. apply H.
  intros [|] c Hc; cbn [child children0 children1] in Hc.
  - destruct c1 as [c1'|]; [|discriminate].
    injection Hc as <-. apply IH.
  - destruct c0 as [c0'|]; [|discriminate].
    injection Hc as <-. apply IH.
Qed.

Lemma free_trie_node_at_eq (t : trie_node) :
  free_trie_node_at t
  = free_trie_node (child t false) ++ free_trie_node (child t true) ++
    match data t with Some r => [FreeData r] | None => [] end ++ [FreeNode].
Proof. destruct t as [[c0|] [c1|] pf pl d l]; reflexivity. Qed.

Lemma in_free_trie_node_child (t : trie_node) (e : free_event) :
  In e (free_trie_node_at t) <->
  (exists b c, child t b = Some c /\ In e (free_trie_node_at c))
  \/ (exists r, data t = Some r /\ e = FreeData r)
  \/ e = FreeNode.
Proof.
  rewrite free_trie_node_at_eq, !in_app_iff. split.
  - intros [H | [H | [H | [H | []]]]].
    + left. exists false. destruct (child t false) as [c|]; [|destruct H].
      now exists c.
    + left. exists true. destruct (child t true) as [c|]; [|destruct H].
      now exists c.
    + right. left. destruct (data t) as [r|]; [|destruct H].
      destruct H as [<- | []]. now exists r.
    + right. right. now symmetry.
  - intros [(b & c & Hc & H) | [(r & Hd & ->) | ->]].
    + destruct b; rewrite Hc; simpl; tauto.
    + rewrite Hd. right. right. left. now left.
    + right. right. right. now left.
Qed.

(** The records [free_trie_node] frees are the ones the nodes hold. *)
Lemma free_trie_node_records (t : trie_node) (r : route_entry) :
  In (FreeData r) (free_trie_node_at t) <->
  exists p n, find_node p t = Some n /\ data n = Some r.
Proof.
  induction t as [t IH] using trie_node_child_ind.
  rewrite in_free_trie_node_child. split.
  - intros [(b & c & Hc & H) | [(r' & Hd & E) | E]]; [| |discriminate].
    + apply (IH b c Hc) in H as (p & n & Hn & Hd).
      exists (b :: p), n. split; [simpl; rewrite Hc; exact Hn | exact Hd].
    + injection E as ->. exists [], t. split; [reflexivity | exact Hd].
  - intros ([|b p] & n & Hn & Hd).
    + injection Hn as <-. right. left. now exists r.
    + simpl in Hn. destruct (child t b) as [c|] eqn:Hc; [|discriminate].
      left. exists b, c. split; [exact Hc|].
      apply (IH b c Hc). now exists p, n.
Qed.

Lemma apply_op_anchored_own_path (t : trie_node) (o : trie_op) :
  op_in_range o -> anchored_at_own_path t ->
  anchored_at_own_path (fst (apply_op t o)).
Proof.
  destruct o as [heap r | p len]; cbn [apply_op op_in_range];
    intros Hr Ht q r'.
  - destruct (insert_route_leaves heap t r Hr) as [(_ & Hb & Ho) | (_ & Ho)].
    + destruct (list_eq_dec bool_dec q (path_of (prefix r) (prefix_len r)))
        as [->|Hne].
      * rewrite Hb. intros E. now injection E as <-.
      * rewrite Ho by exact Hne. apply Ht.
    + rewrite Ho. apply Ht.
  - destruct (delete_route_cases t p len Hr) as [H0 | [_ ->]]; [|apply Ht].
    destruct (delete_route_leaves t p len Hr H0) as (_ & Hb & Ho).
    destruct (list_eq_dec bool_dec q (path_of p len)) as [->|Hne].
    + rewrite Hb. discriminate.
    + rewrite Ho by exact Hne. apply Ht.
Qed.

Lemma anchored_at_own_path_fresh : anchored_at_own_path fresh_node.
Proof. intros p r H. rewrite leaf_at_fresh in H. discriminate. Qed.

(** On a trie built by inserts and deletes, a node holds a record exactly
    when the record is anchored there. *)
Lemma run_ops_data_anchored (ops : list trie_op) (p : list bool)
    (r : route_entry) :
  Forall op_in_range ops ->
  (exists n, find_node p (run_ops ops empty_trie) = Some n /\
             data n = Some r)
  <-> leaf_at (run_ops ops empty_trie) p = Some (Some r).
Proof.
  intros Hr. split.
  - intros (n & Hn & Hd).
    assert (Hnl : nonleaf_no_data (run_ops ops empty_trie))
      by (apply run_ops_inv;
          [apply apply_op_nonleaf_no_data | exact Hr
          | apply nonleaf_no_data_fresh]).
    unfold leaf_at. rewrite Hn. destruct (is_leaf n) eqn:El.
    + now rewrite Hd.
    + rewrite (Hnl p n Hn El) in Hd. discriminate.
  - intros H. apply leaf_at_find_node in H as (n & Hn & _ & Hd).
    now exists n.
Qed.

(** X12 — Teardown frees exactly the records of the table: on a trie built
    from the empty one by inserts (all returning 0) and deletes,
    [free_trie_node] passes a record to [free] if and only if the table
    still binds it to a prefix.  A record that [delete_route] unbound, or
    that a later insert for the same prefix replaced, is not freed. *)
Theorem free_trie_node_frees_table (ops : list trie_op) (r : route_entry) :
  Forall op_in_range ops ->
  inserts_succeed ops empty_trie ->
  In (FreeData r) (free_trie_node (Some (run_ops ops empty_trie)))
  <-> exists p, table_of ops p = Some r.
Proof.
  intros Hr Hs. cbn [free_trie_node]. rewrite free_trie_node_records.
  pose proof (holds_table_run ops empty_trie table_empty Hr Hs
                holds_table_empty) as Ht.
  fold (table_of ops) in Ht. split.
  - intros (p & n & Hn & Hd). exists p.
    assert (H : leaf_at (run_ops ops empty_trie) p = Some (Some r))
      by (apply (run_ops_data_anchored ops p r Hr); now exists n).
    rewrite Ht in H. destruct (table_of ops p); [|discriminate].
    cbn [option_map] in H. congruence.
  - intros (p & Hp). exists p.
    apply (run_ops_data_anchored ops p r Hr). rewrite Ht, Hp. reflexivity.
Qed.

Lemma free_trie_node_frees_table_witness :
  let ops := [Insert 32 route_10_8; Insert 32 route_10_0_1_24;
              Delete (ipv4 10 0 0 0) 8] in
  Forall op_in_range ops /\ inserts_succeed ops empty_trie /\
  In (FreeData route_10_0_1_24)
     (free_trie_node (Some (run_ops ops empty_trie))).
Proof.
  cbv zeta.
  assert (Hr : Forall op_in_range
                 [Insert 32 route_10_8; Insert 32 route_10_0_1_24;
                  Delete (ipv4 10 0 0 0) 8])
    by (repeat constructor; simpl; lia).
  assert (Hs : inserts_succeed
                 [Insert 32 route_10_8; Insert 32 route_10_0_1_24;
                  Delete (ipv4 10 0 0 0) 8] empty_trie)
    by (vm_compute; repeat split).
  split; [exact Hr|]. split; [exact Hs|].
  apply (proj2 (free_trie_node_frees_table _ route_10_0_1_24 Hr Hs)).
  exists (path_of (ipv4 10 0 1 0) 24). vm_compute. reflexivity.
Defined.

Lemma in_freed_records (tr : list free_event) (r : route_entry) :
  In r (freed_records tr) <-> In (FreeData r) tr.
Proof.
  unfold freed_records. rewrite in_flat_map. split.
  - intros ([r'|] & Hin & H); [|destruct H].
    destruct H as [<- | []]. exact Hin.
  - intros H. exists (FreeData r). split; [exact H | now left].
Qed.

Lemma freed_records_app (tr tr' : list free_event) :
  freed_records (tr ++ tr') = freed_records tr ++ freed_records tr'.
Proof. apply flat_map_app. Qed.

Lemma records_at_own_path_child (base : list bool) (t c : trie_node) b :
  records_at_own_path base t -> child t b = Some c ->
  records_at_own_path (base ++ [b]) c.
Proof.
  intros H Hc p n r Hn Hd. rewrite <- app_assoc. cbn [app].
  apply (H (b :: p) n r); [|exact Hd]. simpl. rewrite Hc. exact Hn.
Qed.

Lemma free_trie_node_child_path (base : list bool) (t : trie_node) b r :
  records_at_own_path base t ->
  In r (freed_records (free_trie_node (child t b))) ->
  exists p, path_of (prefix r) (prefix_len r) = base ++ b :: p.
Proof.
  intros H Hin. destruct (child t b) as [c|] eqn:Hc; [|destruct Hin].
  apply in_freed_records, free_trie_node_records in Hin
    as (p & n & Hn & Hd).
  exists p. apply (H (b :: p) n r); [|exact Hd]. simpl. rewrite Hc. exact Hn.
Qed.

Lemma free_trie_node_nodup (t : trie_node) : forall base,
  records_at_own_path base t ->
  NoDup (freed_records (free_trie_node_at t)).
Proof.
  induction t as [t IH] using trie_node_child_ind. intros base H.
  assert (Hsub : forall b, NoDup (freed_records (free_trie_node (child t b)))).
  { intros b. destruct (child t b) as [c|] eqn:Hc; [|constructor].
    apply (IH b c Hc (base ++ [b])).
    now apply (records_at_own_path_child base t c b). }
  rewrite free_trie_node_at_eq, !freed_records_app.
  apply NoDup_app; [apply Hsub | apply NoDup_app |].
  - apply Hsub.
  - apply NoDup_app.
    + destruct (data t); cbn; repeat constructor. intros [].
    + constructor.
    + intros a _ [].
  - intros r H1 H2. apply in_app_or in H2 as [H2 | []].
    destruct (free_trie_node_child_path base t true r H H1) as [p Hp].
    destruct (data t) as [r'|] eqn:Hd; [|destruct H2].
    destruct H2 as [<- | []].
    pose proof (H [] t r' eq_refl Hd) as E. rewrite Hp in E.
    apply app_inv_head in E. discriminate.
  - intros r H0 H12.
    destruct (free_trie_node_child_path base t false r H H0) as [p Hp].
    apply in_app_or in H12 as [H1 | H2].
    + destruct (free_trie_node_child_path base t true r H H1) as [q Hq].
      rewrite Hp in Hq. apply app_inv_head in Hq. discriminate.
    + apply in_app_or in H2 as [H2 | []].
      destruct (data t) as [r'|] eqn:Hd; [|destruct H2].
      destruct H2 as [<- | []].
      pose proof (H [] t r' eq_refl Hd) as E. rewrite Hp in E.
      apply app_inv_head in E. discriminate.
Qed.

(** X13 — Teardown frees no record twice: on a trie built from the empty
    one by inserts and deletes (prefix lengths in [0,32], whatever the
    inserts return), the records [free_trie_node] passes to [free] are
    pairwise distinct. *)
Theorem free_trie_node_no_double_free (ops : list trie_op) :
  Forall op_in_range ops ->
  NoDup (freed_records (free_trie_node (Some (run_ops ops empty_trie)))).
Proof.
  intros Hr. cbn [free_trie_node]. apply (free_trie_node_nodup _ []).
  intros p n r Hn Hd. cbn [app].
  assert (Ha : anchored_at_own_path (run_ops ops empty_trie))
    by (apply run_ops_inv;
        [apply apply_op_anchored_own_path | exact Hr
        | apply anchored_at_own_path_fresh]).
  apply Ha. apply (run_ops_data_anchored ops p r Hr). now exists n.
Qed.

Lemma free_trie_node_no_double_free_witness :
  let ops := [Insert 32 route_10_8; Insert 2 route_10_0_1_24;
              Insert 32 route_10_8] in
  Forall op_in_range ops /\
  NoDup (freed_records (free_trie_node (Some (run_ops ops empty_trie)))).
Proof.
  cbv zeta.
  assert (Hr : Forall op_in_range
                 [Insert 32 route_10_8; Insert 2 route_10_0_1_24;
                  Insert 32 route_10_8])
    by (repeat constructor; simpl; lia).
  split; [exact Hr|]. exact (free_trie_node_no_double_free _ Hr).
Defined.

(** ** The size of the trie *)

Lemma node_frees_app (tr tr' : list free_event) :
  node_frees (tr ++ tr') = (node_frees tr + node_frees tr')%nat.
Proof. unfold node_frees. now rewrite filter_app, length_app. Qed.

Lemma data_frees_app (tr tr' : list free_event) :
  data_frees (tr ++ tr') = (data_frees tr + data_frees tr')%nat.
Proof. unfold data_frees. now rewrite filter_app, length_app. Qed.

Lemma node_frees_at (t : trie_node) :
  node_frees (free_trie_node_at t)
  = (node_frees (free_trie_node (child t false))
     + node_frees (free_trie_node (child t true)) + 1)%nat.
Proof.
  rewrite free_trie_node_at_eq, !node_frees_app.
  destruct (data t); cbn; lia.
Qed.

Lemma data_frees_at (t : trie_node) :
  data_frees (free_trie_node_at t)
  = (data_frees (free_trie_node (child t false))
     + data_frees (free_trie_node (child t true))
     + match data t with Some _ => 1 | None => 0 end)%nat.
Proof.
  rewrite free_trie_node_at_eq, !data_frees_app.
  destruct (data t); cbn; lia.
Qed.

Lemma pruned_child (t c : trie_node) b :
  pruned t -> child t b = Some c -> pruned c.
Proof.
  intros H Hc p n Hn. apply (H (b :: p)). simpl. rewrite Hc. exact Hn.
Qed.

Lemma height_le_child (h : nat) (t c : trie_node) b :
  height_le h t -> child t b = Some c ->
  exists h', h = S h' /\ height_le h' c.
Proof.
  intros H Hc. destruct h as [|h'].
  - specialize (H [b] c). simpl in H. rewrite Hc in H.
    specialize (H eq_refl). lia.
  - exists h'. split; [reflexivity|]. intros p n Hn.
    specialize (H (b :: p) n). simpl in H. rewrite Hc in H.
    specialize (H Hn). lia.
Qed.

(** Below a node that is not the root, a pruned trie of height [h] whose
    leaves carry records has at most [h + 1] nodes per record, and at least
    one record. *)
Lemma pruned_size (t : trie_node) : forall h,
  pruned t ->
  (forall p n, find_node p t = Some n -> is_leaf n = true -> data n <> None) ->
  height_le h t ->
  (1 <= data_frees (free_trie_node_at t))%nat /\
  (node_frees (free_trie_node_at t)
   <= S h * data_frees (free_trie_node_at t))%nat.
Proof.
  induction t as [t IH] using trie_node_child_ind. intros h Hp Hl Hh.
  assert (Hsub : forall b,
            match child t b with
            | Some _ =>
                exists h', h = S h' /\
                  (1 <= data_frees (free_trie_node (child t b)))%nat /\
                  (node_frees (free_trie_node (child t b))
                   <= h * data_frees (free_trie_node (child t b)))%nat
            | None =>
                data_frees (free_trie_node (child t b)) = 0%nat /\
                node_frees (free_trie_node (child t b)) = 0%nat
            end).
  { intros b. destruct (child t b) as [c|] eqn:Hc; [|split; reflexivity].
    destruct (height_le_child h t c b Hh Hc) as (h' & -> & Hh').
    exists h'. split; [reflexivity|]. cbn [free_trie_node].
    apply (IH b c Hc h'); [exact (pruned_child t c b Hp Hc) | | exact Hh'].
    intros p n Hn. apply (Hl (b :: p)). simpl. rewrite Hc. exact Hn. }
  rewrite node_frees_at, data_frees_at.
  pose proof (Hsub false) as H0. pose proof (Hsub true) as H1.
  pose proof (Hp [] t eq_refl) as Hu.
  pose proof (Hl [] t eq_refl) as Hd.
  destruct (is_leaf t) eqn:El.
  - destruct (data t); [|now elim Hd].
    destruct (child t false), (child t true);
      repeat match goal with
             | H : exists _, _ |- _ => destruct H as (? & ? & ? & ?)
             | H : _ /\ _ |- _ => destruct H
             end; subst; nia.
  - assert (Hc : exists b c, child t b = Some c).
    { destruct (child t false) as [c|] eqn:E0; [now exists false, c|].
      destruct (child t true) as [c|] eqn:E1; [now exists true, c|].
      assert (unnecessary t = true)
        by (apply unnecessary_child; split; [exact El|];
            intros [|]; assumption).
      congruence. }
    destruct Hc as ([|] & c & Hc); rewrite Hc in *;
      destruct (data t);
      [destruct (child t false) | destruct (child t false)
      | destruct (child t true) | destruct (child t true)];
      repeat match goal with
             | H : exists _, _ |- _ => destruct H as (? & ? & ? & ?)
             | H : _ /\ _ |- _ => destruct H
             end; subst; nia.
Qed.

(** X14 — The trie stays proportional to the table, whatever the history:
    on a trie built from the empty one by inserts (all returning 0) and
    deletes, the number of nodes [free_trie_node] frees is at most one (the
    root) plus 32 for each record it frees. *)
Theorem trie_size_bound (ops : list trie_op) :
  Forall op_in_range ops ->
  inserts_succeed ops empty_trie ->
  let tr := free_trie_node (Some (run_ops ops empty_trie)) in
  (node_frees tr <= 1 + 32 * data_frees tr)%nat.
Proof.
  intros Hr Hs tr. subst tr. cbn [free_trie_node].
  set (t := run_ops ops empty_trie).
  assert (Hp : pruned_below t)
    by (apply run_ops_pruned; [exact Hr | exact Hs | apply pruned_below_fresh]).
  assert (Hh : height_le 32 t)
    by (apply run_ops_inv;
        [apply apply_op_height_le | exact Hr | apply height_le_fresh]).
  assert (Ha : anchored_at_depth t)
    by (apply run_ops_anchored; [exact Hr | apply anchored_at_depth_fresh]).
  assert (Hsub : forall b,
            (node_frees (free_trie_node (child t b))
             <= 32 * data_frees (free_trie_node (child t b)))%nat).
  { intros b. destruct (child t b) as [c|] eqn:Hc; [|cbn; lia].
    destruct (height_le_child 32 t c b Hh Hc) as (h' & E & Hh').
    injection E as <-. cbn [free_trie_node].
    apply (pruned_size c 31); [| |exact Hh'].
    - exact (proj1 (pruned_below_child t) Hp b c Hc).
    - intros p n Hn El Hd.
      destruct (Ha (b :: p) (data n)) as (r & E & _); [|congruence].
      unfold leaf_at. simpl. rewrite Hc, Hn, El. reflexivity. }
  rewrite node_frees_at, data_frees_at.
  pose proof (Hsub false). pose proof (Hsub true). lia.
Qed.

Lemma trie_size_bound_witness :
  let ops := [Insert 32 route_10_8; Insert 32 route_10_0_1_24;
              Delete (ipv4 10 0 0 0) 8] in
  Forall op_in_range ops /\ inserts_succeed ops empty_trie /\
  (node_frees (free_trie_node (Some (run_ops ops empty_trie)))
   <= 1 + 32 * data_frees (free_trie_node (Some (run_ops ops empty_trie))))%nat.
Proof.
  cbv zeta.
  assert (Hr : Forall op_in_range
                 [Insert 32 route_10_8; Insert 32 route_10_0_1_24;
                  Delete (ipv4 10 0 0 0) 8])
    by (repeat constructor; simpl; lia).
  assert (Hs : inserts_succeed
                 [Insert 32 route_10_8; Insert 32 route_10_0_1_24;
                  Delete (ipv4 10 0 0 0) 8] empty_trie)
    by (vm_compute; repeat split).
  split; [exact Hr|]. split; [exact Hs|].
  exact (trie_size_bound _ Hr Hs).
Defined.

(** ** More on the lookup cache *)

Lemma apply_call_coherent (root : trie_node) (cache : route_cache)
    (k : cache_call) :
  call_root k = root -> coherent root cache ->
  returned (apply_call cache k) = lookup_route_optimized root (call_ip k)
  /\ coherent root (cache_after (apply_call cache k)).
Proof.
  intros Hk Hc. unfold apply_call. rewrite Hk.
  destruct (find (fresh_for (call_ip k) (call_now k) (call_ttl k))
                 (entries cache)) as [e0|] eqn:Hf.
  - rewrite (lookup_with_cache_hit _ root _ _ _ _ Hf). cbn [returned cache_after].
    destruct (find_some _ _ Hf) as [Hin Hfr].
    apply fresh_for_true in Hfr as [Hi _].
    split; [|exact Hc]. rewrite (Hc e0 Hin), Hi. reflexivity.
  - rewrite (lookup_with_cache_miss _ root _ _ _ Hf). cbv zeta.
    cbn [returned cache_after]. split; [reflexivity|].
    destruct (lookup_route_optimized root (call_ip k)) as [r|] eqn:Hr;
      [|exact Hc].
    destruct (size cache <? capacity cache); [|exact Hc].
    intros e Hin. cbn [entries] in Hin.
    apply in_app_or in Hin as [Hin | [<- | []]]; [now apply Hc|].
    cbn [route ip]. now rewrite Hr.
Qed.

Lemma run_cache_coherent (root : trie_node) (calls : list cache_call) :
  forall cache,
  Forall (fun k => call_root k = root) calls ->
  coherent root cache -> coherent root (run_cache calls cache).
Proof.
  induction calls as [|k calls IH]; intros cache Hr Hc; [exact Hc|].
  inversion Hr as [|? ? Hk Hr']; subst.
  unfold run_cache. cbn [fold_left]. apply IH; [exact Hr'|].
  now apply apply_call_coherent.
Qed.

(** X15 — While the trie does not change the cache is transparent: after
    any sequence of [lookup_with_cache] calls on one trie, starting from a
    new cache of any capacity and with any clock values and times to live,
    a further call on that trie returns exactly what
    [lookup_route_optimized] returns for the address. *)
Theorem cache_transparent_on_fixed_trie (root : trie_node) (c : Z)
    (calls : list cache_call) (k : cache_call) :
  Forall (fun k' => call_root k' = root) calls ->
  call_root k = root ->
  returned (apply_call (run_cache calls (create_route_cache c)) k)
  = lookup_route_optimized root (call_ip k).
Proof.
  intros Hr Hk. apply apply_call_coherent; [exact Hk|].
  apply run_cache_coherent; [exact Hr|]. intros e [].
Qed.

Lemma cache_transparent_on_fixed_trie_witness :
  let a := ipv4 10 0 1 5 in
  let calls := [mk_call 0 example_trie a 10; mk_call 3 example_trie a 10] in
  Forall (fun k' => call_root k' = example_trie) calls /\
  returned (apply_call (run_cache calls (create_route_cache 4))
                       (mk_call 5 example_trie a 10))
  = lookup_route_optimized example_trie a.
Proof.
  cbv zeta.
  assert (Hr : Forall (fun k' => call_root k' = example_trie)
                 [mk_call 0 example_trie (ipv4 10 0 1 5) 10;
                  mk_call 3 example_trie (ipv4 10 0 1 5) 10])
    by (repeat constructor).
  split; [exact Hr|].
  exact (cache_transparent_on_fixed_trie example_trie 4 _
           (mk_call 5 example_trie (ipv4 10 0 1 5) 10) Hr eq_refl).
Defined.

Lemma find_app_last {A : Type} (f : A -> bool) (l : list A) (x : A) :
  (forall y, In y l -> f y = false) -> f x = true ->
  find f (l ++ [x]) = Some x.
Proof.
  intros Hl Hx. induction l as [|y l IH]; simpl.
  - now rewrite Hx.
  - rewrite (Hl y) by (now left). apply IH. intros z Hz. apply Hl. now right.
Qed.

(** X16 — The cache is never invalidated: when a call misses, finds a
    route in the trie and stores it, every later call for the same address
    within the time to live (clock not before the first call, time to live
    not larger) returns that stored route without asking the trie, whatever
    the trie has become in between, a [delete_route] of that very route
    included. *)
Theorem cache_serves_stored_route (now0 now1 : Z) (root root' : trie_node)
    (cache : route_cache) (ip0 ttl0 ttl1 : Z) (r : route_entry) :
  (forall e, In e (entries cache) -> ip e = ip0 ->
             ttl0 <= now0 - timestamp e) ->
  lookup_route_optimized root ip0 = Some r ->
  size cache < capacity cache ->
  now0 <= now1 -> ttl1 <= ttl0 -> now1 - now0 < ttl1 ->
  let cache1 := cache_after (lookup_with_cache now0 root cache ip0 ttl0) in
  lookup_with_cache now1 root' cache1 ip0 ttl1
  = mk_result (Some r) cache1 [].
Proof.
  intros Hexp Hr Hroom Hclock Httl Hage cache1.
  assert (Hf : find (fresh_for ip0 now0 ttl0) (entries cache) = None).
  { apply find_none_iff. intros e He.
    destruct (fresh_for ip0 now0 ttl0 e) eqn:E; [|reflexivity].
    apply fresh_for_true in E as [Hi Ha]. specialize (Hexp e He Hi). lia. }
  assert (E1 : cache1 = mk_cache (entries cache ++ [mk_entry ip0 (Some r) now0])
                                 (capacity cache)).
  { unfold cache1. rewrite (lookup_with_cache_miss now0 root cache ip0 ttl0 Hf).
    cbv zeta. rewrite Hr. cbn [cache_after].
    apply Z.ltb_lt in Hroom. now rewrite Hroom. }
  rewrite E1.
  apply (lookup_with_cache_hit now1 root' _ ip0 ttl1
           (mk_entry ip0 (Some r) now0)).
  cbn [entries]. apply find_app_last.
  - intros e He. destruct (fresh_for ip0 now1 ttl1 e) eqn:E; [|reflexivity].
    apply fresh_for_true in E as [Hi Ha]. specialize (Hexp e He Hi). lia.
  - apply fresh_for_true. cbn [ip timestamp]. split; [reflexivity | lia].
Qed.

Lemma cache_serves_stored_route_witness :
  let a := ipv4 10 0 1 5 in
  let cache1 :=
    cache_after (lookup_with_cache 0 example_trie (create_route_cache 4) a 10) in
  lookup_route_optimized example_trie a = Some route_10_0_1_24 /\
  lookup_route_optimized (fst (delete_route example_trie (ipv4 10 0 1 0) 24)) a
  = Some route_10_8 /\
  lookup_with_cache 5 (fst (delete_route example_trie (ipv4 10 0 1 0) 24))
                    cache1 a 10
  = mk_result (Some route_10_0_1_24) cache1 [].
Proof.
  cbv zeta.
  assert (Hr : lookup_route_optimized example_trie (ipv4 10 0 1 5)
               = Some route_10_0_1_24) by (vm_compute; reflexivity).
  split; [exact Hr|]. split; [vm_compute; reflexivity|].
  apply (cache_serves_stored_route 0 5 example_trie
           (fst (delete_route example_trie (ipv4 10 0 1 0) 24))
           (create_route_cache 4) (ipv4 10 0 1 5) 10 10 route_10_0_1_24).
  - intros e [].
  - exact Hr.
  - vm_compute. reflexivity.
  - lia.
  - lia.
  - lia.
Defined.

Lemma run_cache_routes_not_null (calls : list cache_call) : forall cache,
  (forall e, In e (entries cache) -> route e <> None) ->
  forall e, In e (entries (run_cache calls cache)) -> route e <> None.
Proof.
  induction calls as [|k calls IH]; intros cache Hc; [exact Hc|].
  unfold run_cache. cbn [fold_left]. apply IH.
  destruct (apply_call_cases cache k) as [-> | (_ & r & _ & _ & ->)];
    [exact Hc|].
  intros e Hin. cbn [entries] in Hin.
  apply in_app_or in Hin as [Hin | [<- | []]]; [now apply Hc | discriminate].
Qed.

(** X17 — A none result is never memoized: a cache that started empty holds
    no entry with a [NULL] route, so whenever [lookup_with_cache] returns
    none it has asked the trie, which had no route for the address. *)
Theorem cache_none_comes_from_trie (c : Z) (calls : list cache_call)
    (k : cache_call) :
  let cache := run_cache calls (create_route_cache c) in
  (forall e, In e (entries cache) -> route e <> None)
  /\ (returned (apply_call cache k) = None ->
      trie_queries (apply_call cache k) = [call_ip k] /\
      lookup_route_optimized (call_root k) (call_ip k) = None /\
      cache_after (apply_call cache k) = cache).
Proof.
  intros cache.
  assert (Hnn : forall e, In e (entries cache) -> route e <> None)
    by (apply run_cache_routes_not_null; intros e []).
  split; [exact Hnn|]. unfold apply_call.
  destruct (find (fresh_for (call_ip k) (call_now k) (call_ttl k))
                 (entries cache)) as [e0|] eqn:Hf.
  - rewrite (lookup_with_cache_hit _ (call_root k) _ _ _ _ Hf).
    cbn [returned]. intros E.
    destruct (find_some _ _ Hf) as [Hin _]. now elim (Hnn e0 Hin).
  - rewrite (lookup_with_cache_miss _ (call_root k) _ _ _ Hf). cbv zeta.
    cbn [returned trie_queries cache_after]. intros E. rewrite E.
    repeat split.
Qed.

(** X18 — A cache created with capacity zero or less never stores
    anything: after any calls it is still empty, and every call asks the
    trie and returns its answer. *)
Theorem cache_without_capacity (c : Z) (calls : list cache_call)
    (k : cache_call) :
  c <= 0 ->
  let cache := run_cache calls (create_route_cache c) in
  entries cache = []
  /\ returned (apply_call cache k)
     = lookup_route_optimized (call_root k) (call_ip k)
  /\ trie_queries (apply_call cache k) = [call_ip k].
Proof.
  intros Hc cache.
  assert (He : entries cache = [] /\ capacity cache = c).
  { subst cache. induction calls as [|k' calls IH] using rev_ind.
    - split; reflexivity.
    - unfold run_cache in *. rewrite fold_left_app. cbn [fold_left].
      destruct IH as [IH1 IH2].
      set (cache := fold_left _ calls _) in *.
      destruct (apply_call_cases cache k') as [-> | (Hlt & _)];
        [split; assumption|].
      unfold size in Hlt. rewrite IH1, IH2 in Hlt. simpl in Hlt. lia. }
  destruct He as [He _]. split; [exact He|].
  unfold apply_call.
  rewrite (lookup_with_cache_miss _ (call_root k) cache _ _)
    by (rewrite He; reflexivity).
  split; reflexivity.
Qed.

Lemma cache_without_capacity_witness :
  let a := ipv4 10 0 1 5 in
  0 <= 0 /\
  returned (apply_call (run_cache [mk_call 0 example_trie a 10]
                                  (create_route_cache 0))
                       (mk_call 1 empty_trie a 10))
  = lookup_route_optimized empty_trie a.
Proof.
  cbv zeta. split; [lia|].
  refine (proj1 (proj2 (cache_without_capacity 0
                          [mk_call 0 example_trie (ipv4 10 0 1 5) 10]
                          (mk_call 1 empty_trie (ipv4 10 0 1 5) 10) _))).
  lia.
Defined.

Lemma cache_none_comes_from_trie_witness :
  let a := ipv4 192 168 1 1 in
  let cache := run_cache [mk_call 0 example_trie (ipv4 10 0 1 5) 10]
                         (create_route_cache 4) in
  returned (apply_call cache (mk_call 1 example_trie a 10)) = None /\
  trie_queries (apply_call cache (mk_call 1 example_trie a 10)) = [a].
Proof.
  cbv zeta.
  assert (H : returned
                (apply_call
                   (run_cache [mk_call 0 example_trie (ipv4 10 0 1 5) 10]
                              (create_route_cache 4))
                   (mk_call 1 example_trie (ipv4 192 168 1 1) 10)) = None)
    by (vm_compute; reflexivity).
  split; [exact H|].
  exact (proj1 (proj2 (cache_none_comes_from_trie 4
                         [mk_call 0 example_trie (ipv4 10 0 1 5) 10]
                         (mk_call 1 example_trie (ipv4 192 168 1 1) 10)) H)).
Defined.

(** ** The order of inserts *)

Lemma insert_path_cons_enough (b : bool) (bs : list bool) (r : route_entry)
    (heap : nat) (t : trie_node) :
  (length (b :: bs) <= heap)%nat ->
  exists heap', (length bs <= heap')%nat /\
    fst (insert_path (b :: bs) r heap t)
    = set_child t b (Some (fst (insert_path bs r heap' (child_or_fresh t b)))).
Proof.
  intros H. cbn [insert_path length] in *. unfold child_or_fresh.
  destruct (child t b) as [c|].
  - exists heap. split; [lia|].
    destruct (insert_path bs r heap c). reflexivity.
  - destruct heap as [|heap]; [lia|]. exists heap. split; [lia|].
    destruct (insert_path bs r heap fresh_node). reflexivity.
Qed.

Lemma insert_path_heap_irrelevant (bs : list bool) (r : route_entry) :
  forall h h' t,
  (length bs <= h)%nat -> (length bs <= h')%nat ->
  fst (insert_path bs r h t) = fst (insert_path bs r h' t).
Proof.
  induction bs as [|b bs IH]; intros h h' t H H'; [reflexivity|].
  destruct (insert_path_cons_enough b bs r h t H) as (k & Hk & ->).
  destruct (insert_path_cons_enough b bs r h' t H') as (k' & Hk' & ->).
  now rewrite (IH k k').
Qed.

Lemma child_or_fresh_set_child_same (t : trie_node) b c :
  child_or_fresh (set_child t b (Some c)) b = c.
Proof. unfold child_or_fresh. now rewrite child_set_child_same. Qed.

Lemma child_or_fresh_set_child_other (t : trie_node) b b' x :
  b <> b' -> child_or_fresh (set_child t b x) b' = child_or_fresh t b'.
Proof.
  intros H. unfold child_or_fresh. now rewrite child_set_child_other.
Qed.

Lemma child_or_fresh_set_data_leaf (t : trie_node) d l b :
  child_or_fresh (set_data_leaf t d l) b = child_or_fresh t b.
Proof. unfold child_or_fresh. now rewrite child_set_data_leaf. Qed.

Lemma set_child_swap (t : trie_node) b b' x y :
  b <> b' ->
  set_child (set_child t b x) b' y = set_child (set_child t b' y) b x.
Proof. destruct t, b, b'; intros H; try reflexivity; now elim H. Qed.

Lemma set_child_set_data_leaf (t : trie_node) b x d l :
  set_child (set_data_leaf t d l) b x = set_data_leaf (set_child t b x) d l.
Proof. destruct t, b; reflexivity. Qed.

Lemma insert_path_commute (bs1 : list bool) (r1 r2 : route_entry) :
  forall bs2 t h1 h2 h1' h2',
  bs1 <> bs2 ->
  (length bs1 <= h1)%nat -> (length bs1 <= h1')%nat ->
  (length bs2 <= h2)%nat -> (length bs2 <= h2')%nat ->
  fst (insert_path bs1 r1 h1 (fst (insert_path bs2 r2 h2 t)))
  = fst (insert_path bs2 r2 h2' (fst (insert_path bs1 r1 h1' t))).
Proof.
  induction bs1 as [|b1 bs1 IH]; intros bs2 t h1 h2 h1' h2' Hne H1 H1' H2 H2'.
  - destruct bs2 as [|b2 bs2]; [now elim Hne|].
    destruct (insert_path_cons_enough b2 bs2 r2 h2 t H2) as (k & Hk & ->).
    destruct (insert_path_cons_enough b2 bs2 r2 h2'
                (fst (insert_path [] r1 h1' t)) H2') as (k' & Hk' & ->).
    cbn [insert_path fst].
    rewrite child_or_fresh_set_data_leaf, set_child_set_data_leaf.
    now rewrite (insert_path_heap_irrelevant bs2 r2 k k').
  - destruct (insert_path_cons_enough b1 bs1 r1 h1' t H1') as (k1' & Hk1' & ->).
    destruct (insert_path_cons_enough b1 bs1 r1 h1
                (fst (insert_path bs2 r2 h2 t)) H1) as (k1 & Hk1 & ->).
    destruct bs2 as [|b2 bs2].
    + cbn [insert_path fst].
      rewrite child_or_fresh_set_data_leaf, set_child_set_data_leaf.
      now rewrite (insert_path_heap_irrelevant bs1 r1 k1 k1').
    + destruct (insert_path_cons_enough b2 bs2 r2 h2 t H2) as (k2 & Hk2 & ->).
      destruct (insert_path_cons_enough b2 bs2 r2 h2'
                  (set_child t b1
                     (Some (fst (insert_path bs1 r1 k1' (child_or_fresh t b1)))))
                  H2') as (k2' & Hk2' & ->).
      destruct (bool_dec b2 b1) as [->|Hb].
      * rewrite !child_or_fresh_set_child_same, !set_child_twice.
        do 2 f_equal. apply IH; try assumption. congruence.
      * rewrite !child_or_fresh_set_child_other by congruence.
        rewrite (set_child_swap t b2 b1) by exact Hb.
        rewrite (insert_path_heap_irrelevant bs1 r1 k1 k1') by assumption.
        now rewrite (insert_path_heap_irrelevant bs2 r2 k2 k2').
Qed.

(** X19 — The order of two inserts of different prefixes does not matter:
    with memory for both (32 nodes each) the two orders return 0 and leave
    the same trie, node for node. *)
Theorem insert_route_commute (h1 h2 h1' h2' : nat) (t : trie_node)
    (r1 r2 : route_entry) :
  0 <= prefix_len r1 <= 32 -> 0 <= prefix_len r2 <= 32 ->
  path_of (prefix r1) (prefix_len r1) <> path_of (prefix r2) (prefix_len r2) ->
  (32 <= h1)%nat -> (32 <= h2)%nat -> (32 <= h1')%nat -> (32 <= h2')%nat ->
  insert_route h1 (fst (insert_route h2 t r2)) r1
  = (fst (insert_route h2' (fst (insert_route h1' t r1)) r2), 0)
  /\ snd (insert_route h2 t r2) = 0 /\ snd (insert_route h1' t r1) = 0
  /\ snd (insert_route h2' (fst (insert_route h1' t r1)) r2) = 0.
Proof.
  intros L1 L2 Hne H1 H2 H1' H2'.
  assert (E : forall h u r, 0 <= prefix_len r <= 32 -> (32 <= h)%nat ->
                            snd (insert_route h u r) = 0)
    by (intros h u r L H; apply insert_route_enough_heap; lia).
  split; [|repeat split; apply E; assumption].
  rewrite (surjective_pairing (insert_route h1 _ r1)), E by assumption.
  f_equal.
  rewrite !(insert_route_path _ _ r1 L1), !(insert_route_path _ _ r2 L2).
  apply insert_path_commute; try exact Hne; rewrite length_path_of; lia.
Qed.

Lemma insert_route_commute_witness :
  0 <= prefix_len route_10_8 <= 32 /\
  insert_route 32 (fst (insert_route 32 empty_trie route_10_0_1_24)) route_10_8
  = (fst (insert_route 32 (fst (insert_route 32 empty_trie route_10_8))
                       route_10_0_1_24), 0).
Proof.
  assert (L1 : 0 <= prefix_len route_10_8 <= 32) by (simpl; lia).
  assert (L2 : 0 <= prefix_len route_10_0_1_24 <= 32) by (simpl; lia).
  split; [exact L1|].
  refine (proj1 (insert_route_commute 32 32 32 32 empty_trie
                   route_10_8 route_10_0_1_24 L1 L2 _ _ _ _ _));
    try lia.
  intros E. apply (f_equal (@length bool)) in E.
  rewrite !length_path_of in E. simpl in E. lia.
Defined.
